(** * thread_pool.h: a fixed-size worker-thread pool

    Shallow embedding of [class ThreadPool] (src/thread_pool.h) as a
    labelled transition system.  Every thread of the program (the workers
    spawned by [start], the callers of [commit] and [shutdown], the thread
    running the destructor) advances by atomic steps; a step is one access
    to the shared atomics [quit_] / [force_], or one stretch of code that
    runs under [oper_lock_] and touches only the queue.

    The history of synchronisation events is kept in a ghost field [log];
    no step ever reads it. *)

From stdpp Require Import base option list strings.
From Stdlib Require Import ZArith.

(** ** Data *)

(** What the bound callable does when it is finally invoked: it returns a
    value or throws. *)
Inductive Outcome :=
| Value (v : Z)
| Failure (what : string).

(** The closure pushed on the queue at line 87, which calls the
    [packaged_task] it captures.  [tid] is the address of the shared state
    that this [packaged_task] and the [future] returned to the caller have
    in common. *)
Record Task := mkTask { tid : nat; work : Outcome }.

Inductive exn :=
| runtime_error (what : string).

Inductive Thread :=
| worker (i : nat)
| client.

Inductive Event :=
| EvLock (th : Thread)
| EvUnlock (th : Thread)
| EvEmplace (t : Task)
| EvNotifyOne (woken : option nat)
| EvNotifyAll
| EvPop (i : nat) (t : Task)
| EvInvoke (i : nat) (t : Task)
| EvExit (i : nat)
| EvStoreQuit
| EvStoreForce (b : bool)
| EvAbandon (t : Task).

(** Program points of the lambda run by each worker (lines 45-64). *)
Inductive pc :=
| AtEntry                (* line 47, before [force_.load()] *)
| AtEntryQuit            (* line 47, [force_] was true, before [quit_.load()] *)
| AtLoop                 (* line 48, testing the local [quit_] *)
| AtLock                 (* line 51, acquiring [oper_lock_] *)
| AtPred                 (* line 53, lock held, evaluating the wait predicate *)
| AtWait                 (* predicate found false, lock held, before blocking *)
| Parked                 (* inside [wait], lock released, blocked *)
| Woken                  (* inside [wait], unblocked, re-acquiring the lock *)
| AtCheck                (* line 56, lock held *)
| AtFront                (* lines 59-60, lock held *)
| AtCall (t : Task)      (* line 62, lock released *)
| Returned               (* the thread function has returned *)
| Aborted                (* an exception left the thread function *)
| Undefined.             (* [front()] on an empty queue *)

(** A [std::thread] of [pool_] with the local variable [quit_] of its
    lambda (which shadows the member of the same name). *)
Record Worker := mkWorker {
  wpc : pc;
  quit_local : bool;
  joinable : bool
}.

(** A call of [commit] or [shutdown] that has performed its first atomic
    access and not yet its second one. *)
Inductive Call :=
| InCommit (t : Task)         (* passed line 78, not yet at line 86 *)
| InShutdown (force : bool).  (* done line 69, not yet line 70 *)

(** Program points of [~ThreadPool] once it has stored [quit_]. *)
Inductive DtorPc :=
| DNotify                (* line 35 *)
| DJoin (k : nat)        (* lines 36-40, at element [k] of [pool_] *)
| DDone.                 (* the members are destroyed *)

Record ThreadPool := mkPool {
  pool_ : list Worker;
  tasks_ : list Task;
  core_ : Z;
  max_ : Z;
  cache_ : Z;
  quit_ : bool;
  force_ : bool;
  oper_lock_ : option nat;            (* the worker holding the mutex *)
  futures : list (option Outcome);    (* shared states, by address *)
  calls : list Call;
  dtor : option DtorPc;
  log : list Event
}.

(** ** Field updates *)

Definition set_pool (f : list Worker → list Worker) (s : ThreadPool) :=
  mkPool (f (pool_ s)) (tasks_ s) (core_ s) (max_ s) (cache_ s) (quit_ s)
         (force_ s) (oper_lock_ s) (futures s) (calls s) (dtor s) (log s).
Definition set_tasks (q : list Task) (s : ThreadPool) :=
  mkPool (pool_ s) q (core_ s) (max_ s) (cache_ s) (quit_ s)
         (force_ s) (oper_lock_ s) (futures s) (calls s) (dtor s) (log s).
Definition set_quit (b : bool) (s : ThreadPool) :=
  mkPool (pool_ s) (tasks_ s) (core_ s) (max_ s) (cache_ s) b
         (force_ s) (oper_lock_ s) (futures s) (calls s) (dtor s) (log s).
Definition set_force (b : bool) (s : ThreadPool) :=
  mkPool (pool_ s) (tasks_ s) (core_ s) (max_ s) (cache_ s) (quit_ s)
         b (oper_lock_ s) (futures s) (calls s) (dtor s) (log s).
Definition set_lock (o : option nat) (s : ThreadPool) :=
  mkPool (pool_ s) (tasks_ s) (core_ s) (max_ s) (cache_ s) (quit_ s)
         (force_ s) o (futures s) (calls s) (dtor s) (log s).
Definition set_futures (h : list (option Outcome)) (s : ThreadPool) :=
  mkPool (pool_ s) (tasks_ s) (core_ s) (max_ s) (cache_ s) (quit_ s)
         (force_ s) (oper_lock_ s) h (calls s) (dtor s) (log s).
Definition set_calls (c : list Call) (s : ThreadPool) :=
  mkPool (pool_ s) (tasks_ s) (core_ s) (max_ s) (cache_ s) (quit_ s)
         (force_ s) (oper_lock_ s) (futures s) c (dtor s) (log s).
Definition set_dtor (d : option DtorPc) (s : ThreadPool) :=
  mkPool (pool_ s) (tasks_ s) (core_ s) (max_ s) (cache_ s) (quit_ s)
         (force_ s) (oper_lock_ s) (futures s) (calls s) d (log s).
Definition emit (evs : list Event) (s : ThreadPool) :=
  mkPool (pool_ s) (tasks_ s) (core_ s) (max_ s) (cache_ s) (quit_ s)
         (force_ s) (oper_lock_ s) (futures s) (calls s) (dtor s)
         (log s ++ evs).

Definition goto (p : pc) (w : Worker) : Worker :=
  mkWorker p (quit_local w) (joinable w).
Definition set_worker (i : nat) (w : Worker) (s : ThreadPool) :=
  set_pool (λ l, <[i:=w]> l) s.

(** ** The condition variable [enable_] *)

Definition is_parked (w : Worker) : bool :=
  match wpc w with Parked => true | _ => false end.

Definition wake (w : Worker) : Worker :=
  if is_parked w then goto Woken w else w.

(** Indices of the workers blocked inside [enable_.wait]. *)
Fixpoint parked_from (k : nat) (l : list Worker) : list nat :=
  match l with
  | [] => []
  | w :: l' => (if is_parked w then [k] else []) ++ parked_from (S k) l'
  end.
Definition parked (s : ThreadPool) : list nat := parked_from 0 (pool_ s).

(** [notify_one] unblocks one of the waiting threads, if there is one; which
    one is not specified, so the choice [pick] is a parameter. *)
Definition notify_one (pick : nat) (s : ThreadPool) : ThreadPool :=
  match parked s !! (pick `mod` length (parked s)) with
  | Some i => emit [EvNotifyOne (Some i)] (set_pool (alter wake i) s)
  | None => emit [EvNotifyOne None] s
  end.

Definition notify_all (s : ThreadPool) : ThreadPool :=
  emit [EvNotifyAll] (set_pool (fmap wake) s).

(** ** Construction and [start] *)

(** Lines 28-31. *)
Definition ThreadPool_ctor (core max cache : Z) : ThreadPool :=
  mkPool [] [] core max cache false false None [] [] None [].

Definition fresh_thread : Worker := mkWorker AtEntry false true.

(** Lines 43-66: [core_] threads are pushed on [pool_]. *)
Definition start (s : ThreadPool) : ThreadPool :=
  set_pool (λ l, l ++ replicate (Z.to_nat (core_ s)) fresh_thread) s.

(** ** [shutdown] (lines 68-71) *)

Definition shutdown_quit (s : ThreadPool) : ThreadPool :=
  emit [EvStoreQuit] (set_quit true s).
Definition shutdown_force (force : bool) (s : ThreadPool) : ThreadPool :=
  emit [EvStoreForce force] (set_force force s).
Definition shutdown (force : bool) (s : ThreadPool) : ThreadPool :=
  shutdown_force force (shutdown_quit s).

(** ** [commit] (lines 75-90) *)

Inductive CallResult (A : Type) :=
| Returns (a : A) (s' : ThreadPool)
| Throws (e : exn) (s' : ThreadPool)
| Blocks.
Arguments Returns {A} a s'.
Arguments Throws {A} e s'.
Arguments Blocks {A}.

(** Lines 78-85: the unlocked test of [quit_], then the allocation of the
    [packaged_task] and of its future. *)
Definition commit_begin (f : Outcome) (s : ThreadPool) : exn + Task * ThreadPool :=
  if quit_ s then inl (runtime_error "thread pool is alreay shutdown.")
  else
    let task := mkTask (length (futures s)) f in
    inr (task, set_futures (futures s ++ [None]) s).

(** Lines 86-89, up to the release of the [lock_guard] on return. *)
Definition commit_end (task : Task) (pick : nat) (s : ThreadPool) : option ThreadPool :=
  match oper_lock_ s with
  | Some _ => None
  | None =>
      let s1 := emit [EvLock client] s in
      let s2 := emit [EvEmplace task] (set_tasks (tasks_ s1 ++ [task]) s1) in
      let s3 := notify_one pick s2 in
      Some (emit [EvUnlock client] s3)
  end.

(** The whole call, run without interruption; the future is returned as the
    address of its shared state. *)
Definition commit (f : Outcome) (pick : nat) (s : ThreadPool) : CallResult nat :=
  match commit_begin f s with
  | inl e => Throws e s
  | inr (task, s1) =>
      match commit_end task pick s1 with
      | Some s2 => Returns (tid task) s2
      | None => Blocks
      end
  end.

(** ** The worker loop (lines 45-64) *)

(** Calling a [packaged_task]: the result or the exception of the stored
    callable goes to the shared state; a second invocation throws
    [future_error], which nothing in the lambda catches. *)
Definition invoke (t : Task) (h : list (option Outcome)) : option (list (option Outcome)) :=
  match h !! tid t with
  | Some None => Some (<[tid t := Some (work t)]> h)
  | _ => None
  end.

Definition is_empty (q : list Task) : bool :=
  match q with [] => true | _ => false end.

Definition worker_step (i : nat) (s : ThreadPool) : option ThreadPool :=
  w ← pool_ s !! i;
  match wpc w with
  | AtEntry =>
      if force_ s then Some (set_worker i (goto AtEntryQuit w) s)
      else Some (set_worker i (mkWorker AtLoop false (joinable w)) s)
  | AtEntryQuit =>
      Some (set_worker i (mkWorker AtLoop (quit_ s) (joinable w)) s)
  | AtLoop =>
      if quit_local w
      then Some (emit [EvExit i] (set_worker i (goto Returned w) s))
      else Some (set_worker i (goto AtLock w) s)
  | AtLock | Woken =>
      match oper_lock_ s with
      | Some _ => None
      | None =>
          Some (emit [EvLock (worker i)]
                  (set_lock (Some i) (set_worker i (goto AtPred w) s)))
      end
  | AtPred =>
      if quit_ s || negb (is_empty (tasks_ s))
      then Some (set_worker i (goto AtCheck w) s)
      else Some (set_worker i (goto AtWait w) s)
  | AtWait =>
      Some (emit [EvUnlock (worker i)]
              (set_lock None (set_worker i (goto Parked w) s)))
  | Parked => None
  | AtCheck =>
      if quit_ s && is_empty (tasks_ s)
      then Some (emit [EvUnlock (worker i); EvExit i]
                   (set_lock None (set_worker i (goto Returned w) s)))
      else Some (set_worker i (goto AtFront w) s)
  | AtFront =>
      match tasks_ s with
      | [] => Some (set_worker i (goto Undefined w) s)
      | task :: q =>
          Some (emit [EvPop i task; EvUnlock (worker i)]
                  (set_lock None
                     (set_tasks q (set_worker i (goto (AtCall task) w) s))))
      end
  | AtCall task =>
      match invoke task (futures s) with
      | Some h =>
          Some (emit [EvInvoke i task]
                  (set_futures h (set_worker i (goto AtLoop w) s)))
      | None => Some (set_worker i (goto Aborted w) s)
      end
  | Returned | Aborted | Undefined => None
  end.

(** A waiting thread may be unblocked without any notification. *)
Definition spurious_wakeup (i : nat) (s : ThreadPool) : option ThreadPool :=
  w ← pool_ s !! i;
  if is_parked w then Some (set_worker i (goto Woken w) s) else None.

(** ** [~ThreadPool] (lines 33-41) *)

(** The exception that a [packaged_task] destroyed before its call leaves
    in its shared state. *)
Definition broken_promise : Outcome :=
  Failure "std::future_error: Broken promise".

(** The destruction of a closure of the queue: it holds the only pointer
    to its [packaged_task], whose destructor abandons a shared state that is
    not ready. *)
Definition abandon (t : Task) (h : list (option Outcome)) : list (option Outcome) :=
  match h !! tid t with
  | Some None => <[tid t := Some broken_promise]> h
  | _ => h
  end.

(** After the body of the destructor the members are destroyed, among them
    the queue [tasks_] with the closures still in it.  The threads of
    [pool_] have all been joined; their last state is kept on record. *)
Definition destroy_members (s : ThreadPool) : ThreadPool :=
  emit (EvAbandon <$> tasks_ s)
    (set_tasks [] (set_futures (foldr abandon (futures s) (tasks_ s)) s)).

Definition dtor_step (s : ThreadPool) : option ThreadPool :=
  match dtor s with
  | None => Some (set_dtor (Some DNotify) (emit [EvStoreQuit] (set_quit true s)))
  | Some DNotify => Some (set_dtor (Some (DJoin 0)) (notify_all s))
  | Some (DJoin k) =>
      match pool_ s !! k with
      | None => Some (set_dtor (Some DDone) (destroy_members s))
      | Some t =>
          if joinable t then
            match wpc t with
            | Returned =>
                Some (set_dtor (Some (DJoin (S k)))
                        (set_worker k (mkWorker (wpc t) (quit_local t) false) s))
            | _ => None
            end
          else Some (set_dtor (Some (DJoin (S k))) s)
      end
  | Some DDone => None
  end.

(** ** The transition system *)

Inductive Label :=
| LStart
| LCommit (f : Outcome)
| LEnqueue (k pick : nat)
| LShutdown (force : bool)
| LStoreForce (k : nat)
| LWorker (i : nat)
| LSpurious (i : nat)
| LDestroy.

(** A member function may be entered only while the object is alive. *)
Definition alive (s : ThreadPool) : bool :=
  match dtor s with None => true | Some _ => false end.

(** A call that is in flight when the destructor begins can go on until
    the members are destroyed; after that nothing of the object exists. *)
Definition destroyed (s : ThreadPool) : bool :=
  match dtor s with Some DDone => true | _ => false end.

Definition step (l : Label) (s : ThreadPool) : option ThreadPool :=
  match l with
  | LStart => if alive s then Some (start s) else None
  | LCommit f =>
      if alive s then
        match commit_begin f s with
        | inl _ => Some s
        | inr (task, s1) => Some (set_calls (calls s1 ++ [InCommit task]) s1)
        end
      else None
  | LEnqueue k pick =>
      if destroyed s then None else
      match calls s !! k with
      | Some (InCommit task) => commit_end task pick (set_calls (delete k (calls s)) s)
      | _ => None
      end
  | LShutdown force =>
      if alive s then
        let s1 := shutdown_quit s in
        Some (set_calls (calls s1 ++ [InShutdown force]) s1)
      else None
  | LStoreForce k =>
      if destroyed s then None else
      match calls s !! k with
      | Some (InShutdown force) =>
          Some (shutdown_force force (set_calls (delete k (calls s)) s))
      | _ => None
      end
  | LWorker i => worker_step i s
  | LSpurious i => spurious_wakeup i s
  | LDestroy => dtor_step s
  end.

Fixpoint run (tr : list Label) (s : ThreadPool) : option ThreadPool :=
  match tr with
  | [] => Some s
  | l :: tr' => s' ← step l s; run tr' s'
  end.

(** The states the program can be in: those some interleaving of the
    threads reaches from a freshly constructed pool. *)
Definition reachable (s : ThreadPool) : Prop :=
  ∃ core max cache tr, run tr (ThreadPool_ctor core max cache) = Some s.

(** ** Projections of the history *)

Definition emplaced_of (e : Event) : option Task :=
  match e with EvEmplace t => Some t | _ => None end.
Definition popped_of (e : Event) : option Task :=
  match e with EvPop _ t => Some t | _ => None end.
Definition invoked_of (e : Event) : option Task :=
  match e with EvInvoke _ t => Some t | _ => None end.
Definition abandoned_of (e : Event) : option Task :=
  match e with EvAbandon t => Some t | _ => None end.

(** Tasks in the order they were appended to the queue, removed from it,
    called, and destroyed with the queue. *)
Definition emplaced (s : ThreadPool) : list Task := omap emplaced_of (log s).
Definition popped (s : ThreadPool) : list Task := omap popped_of (log s).
Definition invoked (s : ThreadPool) : list Task := omap invoked_of (log s).
Definition abandoned (s : ThreadPool) : list Task := omap abandoned_of (log s).

(** The task a worker holds between its dequeue and the end of the call. *)
Definition running (w : Worker) : list Task :=
  match wpc w with AtCall t => [t] | _ => [] end.
Definition executing (s : ThreadPool) : list Task := pool_ s ≫= running.

Definition call_task (c : Call) : list Task :=
  match c with InCommit t => [t] | InShutdown _ => [] end.
Definition call_tasks (s : ThreadPool) : list Task := calls s ≫= call_task.

(** ** What a thread undergoes when another thread moves *)

(** A notification or a spurious wake-up unblocks it, [join] makes it
    non-joinable; nothing else is done to a thread from outside. *)
Inductive bystander : Worker → Worker → Prop :=
| by_same w : bystander w w
| by_wake w : wpc w = Parked → bystander w (goto Woken w)
| by_join w : wpc w = Returned →
              bystander w (mkWorker Returned (quit_local w) false).

(** [pool_] after a step of a thread that is not a worker: the old threads
    as bystanders, followed by the threads the step has spawned. *)
Definition pool_env (l l' : list Worker) : Prop :=
  ∃ l1 n, l' = l1 ++ replicate n fresh_thread ∧ Forall2 bystander l l1.

Definition is_worker_label (l : Label) : bool :=
  match l with LWorker _ => true | _ => false end.

(** ** The mutex *)

Definition holds_lock (p : pc) : bool :=
  match p with
  | AtPred | AtWait | AtCheck | AtFront | Undefined => true
  | _ => false
  end.

Definition holding (o : option Worker) : bool :=
  match o with Some w => holds_lock (wpc w) | None => false end.

(** The holder recorded in [oper_lock_] is the one worker that is inside a
    critical section. *)
Definition lock_inv (s : ThreadPool) : Prop :=
  ∀ i, holding (pool_ s !! i) = true ↔ oper_lock_ s = Some i.

(** ** Joining the workers (lines 36-40) *)

Definition joined (w : Worker) : Prop :=
  wpc w = Returned ∧ joinable w = false.

Definition join_ok (d : option DtorPc) (j : nat) (w : Worker) : Prop :=
  match d with
  | Some (DJoin k) => j < k → joined w
  | Some DDone => joined w
  | _ => True
  end ∧ (joinable w = false → wpc w = Returned).

Definition dtor_inv (s : ThreadPool) : Prop :=
  ∀ j w, pool_ s !! j = Some w → join_ok (dtor s) j w.

(** ** The queue at the dequeue (lines 52-60) *)

Definition queue_ok (quit : bool) (q : list Task) (p : pc) : Prop :=
  match p with
  | AtWait => q = []
  | AtCheck => quit = true ∨ q ≠ []
  | AtFront => q ≠ []
  | Undefined => False
  | _ => True
  end.

Definition queue_inv (s : ThreadPool) : Prop :=
  ∀ i w, pool_ s !! i = Some w → queue_ok (quit_ s) (tasks_ s) (wpc w).

Definition dequeue_trace : list Label :=
  [LStart; LCommit (Value 7); LEnqueue 0 0] ++ replicate 5 (LWorker 0).

Definition dequeue_pool : ThreadPool :=
  Eval vm_compute in
    default (ThreadPool_ctor 1 0 0) (run dequeue_trace (ThreadPool_ctor 1 0 0)).

(** ** The local exit flag of a worker *)

Definition in_body (p : pc) : bool :=
  match p with
  | AtEntry | AtEntryQuit | AtLoop | Returned => false
  | _ => true
  end.

Definition local_ok (quit : bool) (w : Worker) : Prop :=
  (quit_local w = true → quit = true) ∧
  (in_body (wpc w) = true → quit_local w = false) ∧
  (wpc w = Returned → quit = true).

Definition local_inv (s : ThreadPool) : Prop :=
  ∀ i w, pool_ s !! i = Some w → local_ok (quit_ s) w.

(** Closures are destroyed with the queue only, and the queue is empty from
    then on. *)
Definition abandoned_inv (s : ThreadPool) : Prop :=
  if destroyed s then tasks_ s = [] else abandoned s = [].

(** The tasks already removed, followed by the closures destroyed with the
    queue and by the queue, are the tasks in the order they were
    appended. *)
Definition fifo_inv (s : ThreadPool) : Prop :=
  popped s ++ abandoned s ++ tasks_ s = emplaced s.

(** What a step does to the tasks, seen from the history, the queue, the
    threads and the shared states. *)
Inductive account_step (s s' : ThreadPool) : Prop :=
| acc_idle :
    emplaced s' = emplaced s → invoked s' = invoked s →
    abandoned s' = abandoned s →
    executing s' ≡ₚ executing s → tasks_ s' = tasks_ s →
    call_tasks s' ≡ₚ call_tasks s → futures s' = futures s →
    account_step s s'
| acc_alloc t :
    tid t = length (futures s) → futures s' = futures s ++ [None] →
    call_tasks s' = call_tasks s ++ [t] →
    emplaced s' = emplaced s → invoked s' = invoked s →
    abandoned s' = abandoned s →
    executing s' = executing s → tasks_ s' = tasks_ s →
    account_step s s'
| acc_enqueue t :
    call_tasks s ≡ₚ t :: call_tasks s' → tasks_ s' = tasks_ s ++ [t] →
    emplaced s' = emplaced s ++ [t] → invoked s' = invoked s →
    abandoned s' = abandoned s →
    executing s' ≡ₚ executing s → futures s' = futures s →
    account_step s s'
| acc_pop t :
    tasks_ s = t :: tasks_ s' → executing s' ≡ₚ t :: executing s →
    emplaced s' = emplaced s → invoked s' = invoked s →
    abandoned s' = abandoned s →
    call_tasks s' = call_tasks s → futures s' = futures s →
    account_step s s'
| acc_invoke t :
    executing s ≡ₚ t :: executing s' → invoked s' = invoked s ++ [t] →
    futures s !! tid t = Some None →
    futures s' = <[tid t := Some (work t)]> (futures s) →
    emplaced s' = emplaced s → tasks_ s' = tasks_ s →
    abandoned s' = abandoned s →
    call_tasks s' = call_tasks s →
    account_step s s'
| acc_abort t :
    t ∈ executing s → futures s !! tid t ≠ Some None →
    account_step s s'
| acc_destroy :
    tasks_ s' = [] → abandoned s' = abandoned s ++ tasks_ s →
    futures s' = foldr abandon (futures s) (tasks_ s) →
    emplaced s' = emplaced s → invoked s' = invoked s →
    executing s' ≡ₚ executing s → call_tasks s' = call_tasks s →
    account_step s s'.

(** The shared state of an abandoned [packaged_task]: made ready with
    [broken_promise] unless it was ready already. *)
Definition mark_broken (o : option (option Outcome)) : option (option Outcome) :=
  match o with Some None => Some (Some broken_promise) | _ => o end.

(** Every task appended to the queue is in exactly one place: called
    already, held by a worker, still queued, or destroyed with the queue;
    tasks have distinct shared states, unset until the call and holding its
    outcome afterwards, or [broken_promise] if the call never came. *)
Record account_inv (s : ThreadPool) : Prop := {
  acc_perm : emplaced s ≡ₚ invoked s ++ executing s ++ tasks_ s ++ abandoned s;
  acc_nodup : NoDup (tid <$> (emplaced s ++ call_tasks s));
  acc_pending : ∀ t, t ∈ executing s ++ tasks_ s ++ call_tasks s →
                     futures s !! tid t = Some None;
  acc_done : ∀ t, t ∈ invoked s → futures s !! tid t = Some (Some (work t));
  acc_broken : ∀ t, t ∈ abandoned s →
                    futures s !! tid t = Some (Some broken_promise)
}.

(** ** No worker is ever lost *)

Definition alive_inv (s : ThreadPool) : Prop :=
  ∀ i w, pool_ s !! i = Some w → wpc w ≠ Aborted.

(** ** The invariants of the reachable states *)

Record pool_inv (s : ThreadPool) : Prop := {
  inv_lock : lock_inv s;
  inv_queue : queue_inv s;
  inv_local : local_inv s;
  inv_fifo : fifo_inv s;
  inv_account : account_inv s;
  inv_alive : alive_inv s;
  inv_dtor : dtor_inv s;
  inv_abandoned : abandoned_inv s
}.

(** ** Scenarios *)

(** One worker, started and blocked in [wait] on the empty queue. *)
Definition idle_trace : list Label := LStart :: replicate 5 (LWorker 0).

Definition idle_pool : ThreadPool :=
  Eval vm_compute in
    default (ThreadPool_ctor 1 0 0) (run idle_trace (ThreadPool_ctor 1 0 0)).

(** One worker calls a first task while a second one waits in the queue;
    [shutdown(true)] is then called, and the worker goes on. *)
Definition forced_trace : list Label :=
  [LStart; LCommit (Value 1); LEnqueue 0 0; LCommit (Value 2); LEnqueue 0 0]
  ++ replicate 6 (LWorker 0) ++ [LShutdown true; LStoreForce 0]
  ++ replicate 7 (LWorker 0).

Definition forced_pool : ThreadPool :=
  Eval vm_compute in
    default (ThreadPool_ctor 1 0 0) (run forced_trace (ThreadPool_ctor 1 0 0)).

(** The order of the synchronisation events of a successful [commit] as the
    specification words it: lock, append, unlock, notify. *)
Definition unlocks_before_notifying (f : Outcome) (pick : nat) (s : ThreadPool) : Prop :=
  ∃ s' t o,
    commit f pick s = Returns (tid t) s' ∧
    log s' = log s ++ [EvLock client; EvEmplace t; EvUnlock client; EvNotifyOne o].

(** One worker has dequeued a task that throws; a second task waits. *)
Definition failing_trace : list Label :=
  [LStart; LCommit (Failure "boom"); LEnqueue 0 0; LCommit (Value 2);
   LEnqueue 0 0] ++ replicate 6 (LWorker 0).

Definition failing_pool : ThreadPool :=
  Eval vm_compute in
    default (ThreadPool_ctor 1 0 0) (run failing_trace (ThreadPool_ctor 1 0 0)).

(** The destructor has run to its end on a pool of two workers. *)
Definition destroyed_trace : list Label :=
  [LStart; LDestroy; LDestroy] ++ replicate 5 (LWorker 0)
  ++ replicate 5 (LWorker 1) ++ replicate 3 LDestroy.

Definition destroyed_pool : ThreadPool :=
  Eval vm_compute in
    default (ThreadPool_ctor 2 0 0)
      (run destroyed_trace (ThreadPool_ctor 2 0 0)).

(** A task is queued, [shutdown(true)] is called, and only then the one
    thread is started. *)
Definition late_forced_trace : list Label :=
  [LCommit (Value 1); LEnqueue 0 0; LShutdown true; LStoreForce 0; LStart].

Definition late_forced_pool : ThreadPool :=
  Eval vm_compute in
    default (ThreadPool_ctor 1 0 0)
      (run late_forced_trace (ThreadPool_ctor 1 0 0)).

(** The destruction of [late_forced_pool], to its end. *)
Definition forced_teardown_trace : list Label :=
  [LDestroy; LDestroy] ++ replicate 3 (LWorker 0) ++ [LDestroy; LDestroy].

(** The destructor as the specification words it: its request is the one
    of [shutdown(false)]. *)
Definition requests_graceful_shutdown (s : ThreadPool) : Prop :=
  ∃ s', dtor_step s = Some s' ∧
        quit_ s' = quit_ (shutdown false s) ∧
        force_ s' = force_ (shutdown false s).

(** ** Graceful shutdown *)










(** ** Rest and termination after a shutdown *)





(** ** A task accepted before the request and lost *)

(** One thread; a call of [commit] has passed the test of line 78 and has
    not yet locked the mutex when [shutdown(false)] is called. *)
Definition lost_pre : list Label := [LStart; LCommit (Value 1)].

(** The thread finds [quit_] set and the queue empty, and returns; the call
    of [commit] then appends its task and returns the future. *)
Definition lost_post : list Label :=
  [LStoreForce 1] ++ replicate 5 (LWorker 0) ++ [LEnqueue 0 0].

Definition lost_s0 : ThreadPool :=
  Eval vm_compute in
    default (ThreadPool_ctor 1 0 0) (run lost_pre (ThreadPool_ctor 1 0 0)).

Definition lost_s1 : ThreadPool :=
  Eval vm_compute in default lost_s0 (step (LShutdown false) lost_s0).

Definition lost_end : ThreadPool :=
  Eval vm_compute in default lost_s1 (run lost_post lost_s1).



(** Two workers, three tasks committed before [shutdown(false)], and a
    schedule that brings both workers to their exit. *)
Definition graceful_pre : list Label :=
  [LStart; LCommit (Value 0); LEnqueue 0 0; LWorker 0; LWorker 0;
   LCommit (Value 1); LCommit (Failure "bad"); LEnqueue 1 0; LEnqueue 0 0].

Definition graceful_post : list Label :=
  replicate 12 (LWorker 0) ++ [LStoreForce 0] ++ replicate 11 (LWorker 1)
  ++ replicate 3 (LWorker 0).

Definition graceful_s0 : ThreadPool :=
  Eval vm_compute in
    default (ThreadPool_ctor 2 0 0) (run graceful_pre (ThreadPool_ctor 2 0 0)).

Definition graceful_s1 : ThreadPool :=
  Eval vm_compute in
    default graceful_s0 (step (LShutdown false) graceful_s0).

Definition graceful_end : ThreadPool :=
  Eval vm_compute in default graceful_s1 (run graceful_post graceful_s1).

(** ** The shared states of the futures *)

(** A shared state that is set holds the outcome of a task that has been
    called, or [broken_promise] for a task destroyed with the queue. *)
Definition result_inv (s : ThreadPool) : Prop :=
  ∀ a o, futures s !! a = Some (Some o) →
         ∃ t, tid t = a ∧
              (t ∈ invoked s ∧ work t = o ∨
               t ∈ abandoned s ∧ o = broken_promise).

(** The pool of [lost_end] destroyed: its queued task was never called. *)
Definition lost_destroyed : ThreadPool :=
  Eval vm_compute in
    default lost_end (run (replicate 4 LDestroy) lost_end).

(** ** The configuration *)

(** The same pool with other values of [max_] and [cache_]. *)
Definition reconfigure (max cache : Z) (s : ThreadPool) : ThreadPool :=
  mkPool (pool_ s) (tasks_ s) (core_ s) max cache (quit_ s)
         (force_ s) (oper_lock_ s) (futures s) (calls s) (dtor s) (log s).

Definition no_core_trace : list Label :=
  [LStart; LCommit (Value 1); LEnqueue 0 0; LStart; LCommit (Value 2);
   LEnqueue 0 0].


(** The destructor is joining, or will join, thread [i], which is blocked
    in [wait]: no notification is to come from the destructor. *)
Definition hung (i : nat) (s : ThreadPool) : Prop :=
  quit_ s = true ∧
  (∃ k, dtor s = Some (DJoin k) ∧ k ≤ i) ∧
  ∃ w, pool_ s !! i = Some w ∧ wpc w = Parked ∧ joinable w = true.

(** The steps that can unblock thread [i]: a spurious wake-up, and the
    notification of a call of [commit] that was in flight. *)
Definition may_wake (i : nat) (l : Label) : bool :=
  match l with
  | LSpurious j => bool_decide (j = i)
  | LEnqueue _ _ => true
  | _ => false
  end.

(** One thread has tested the predicate of [wait] on the empty queue and
    is about to block. *)
Definition racing_trace : list Label := LStart :: replicate 4 (LWorker 0).

Definition racing_pool : ThreadPool :=
  Eval vm_compute in
    default (ThreadPool_ctor 1 0 0)
      (run racing_trace (ThreadPool_ctor 1 0 0)).





(** ** Committing in a loop *)

(** The loop of the usage comment (lines 10-12): one caller commits the
    items one after the other; each item comes with the choice its
    [notify_one] makes. *)
Fixpoint commit_all (items : list (Outcome * nat)) (s : ThreadPool)
    : CallResult (list nat) :=
  match items with
  | [] => Returns [] s
  | (f, pick) :: rest =>
      match commit f pick s with
      | Returns a s1 =>
          match commit_all rest s1 with
          | Returns l s2 => Returns (a :: l) s2
          | r => r
          end
      | Throws e s1 => Throws e s1
      | Blocks => Blocks
      end
  end.

(** The tasks that a caller's loop creates, from the first free address. *)
Fixpoint tasks_from (a : nat) (items : list (Outcome * nat)) : list Task :=
  match items with
  | [] => []
  | (f, _) :: rest => mkTask a f :: tasks_from (S a) rest
  end.

(** ** Basic facts on runs *)

Lemma run_app tr1 tr2 s : run (tr1 ++ tr2) s = run tr1 s ≫= run tr2.
Proof.
  revert s. induction tr1 as [|l tr1 IH]; intros s; simpl; [done|].
  destruct (step l s) as [s1|]; simpl; auto.
Qed.

Lemma run_snoc tr l s : run (tr ++ [l]) s = run tr s ≫= step l.
Proof.
  rewrite run_app. destruct (run tr s) as [s1|]; simpl; [|done].
  by destruct (step l s1).
Qed.

(** Induction over the reachable states. *)
Lemma reachable_ind (P : ThreadPool → Prop) :
  (∀ core max cache, P (ThreadPool_ctor core max cache)) →
  (∀ l s s', reachable s → P s → step l s = Some s' → P s') →
  ∀ s, reachable s → P s.
Proof.
  intros Hinit Hstep s (core & max & cache & tr & Hrun).
  revert s Hrun. induction tr as [|l tr IH] using rev_ind; intros s Hrun.
  - simpl in Hrun. by simplify_eq.
  - rewrite run_snoc in Hrun.
    destruct (run tr (ThreadPool_ctor core max cache)) as [s1|] eqn:E;
      simpl in Hrun; [|done].
    apply (Hstep l s1); [by exists core, max, cache, tr|by apply IH|done].
Qed.

Lemma reachable_step l s s' : reachable s → step l s = Some s' → reachable s'.
Proof.
  intros (core & max & cache & tr & Hrun) Hs.
  exists core, max, cache, (tr ++ [l]). rewrite run_snoc, Hrun. done.
Qed.

Lemma reachable_run tr s s' : reachable s → run tr s = Some s' → reachable s'.
Proof.
  intros (core & max & cache & tr0 & Hrun) Hs.
  exists core, max, cache, (tr0 ++ tr). rewrite run_app, Hrun. done.
Qed.

Lemma pool_env_refl l : pool_env l l.
Proof.
  exists l, 0. simpl. rewrite app_nil_r. split; [done|].
  apply Forall_Forall2_diag, Forall_forall. intros; constructor.
Qed.

Lemma pool_env_lookup_r l l' j w' :
  pool_env l l' → l' !! j = Some w' →
  (∃ w, l !! j = Some w ∧ bystander w w') ∨ (l !! j = None ∧ w' = fresh_thread).
Proof.
  intros (l1 & n & -> & HF) Hj. apply lookup_app_Some in Hj as [Hj|[Hge Hj]].
  - left. destruct (Forall2_lookup_r _ _ _ _ _ HF Hj) as (w & ? & ?); eauto.
  - right. apply lookup_replicate in Hj as [-> _]. split; [|done].
    apply lookup_ge_None. by rewrite (Forall2_length _ _ _ HF).
Qed.

Lemma pool_env_lookup_l l l' j w :
  pool_env l l' → l !! j = Some w → ∃ w', l' !! j = Some w' ∧ bystander w w'.
Proof.
  intros (l1 & n & -> & HF) Hj.
  destruct (Forall2_lookup_l _ _ _ _ _ HF Hj) as (w' & Hj' & ?).
  exists w'. split; [|done]. by apply lookup_app_l_Some.
Qed.

Lemma pool_env_nil l l' : pool_env l l' → l ≠ [] → l' ≠ [].
Proof.
  intros (l1 & n & -> & HF) Hl Hnil. apply app_eq_nil in Hnil as [-> _].
  apply Forall2_nil_inv_r in HF. done.
Qed.

Lemma wake_bystander w : bystander w (wake w).
Proof.
  unfold wake, is_parked. destruct (wpc w) eqn:E; constructor. done.
Qed.

Lemma same_env l l' : Forall2 bystander l l' → pool_env l l'.
Proof. intros HF. exists l', 0. simpl. by rewrite app_nil_r. Qed.

Lemma insert_same l i w w' :
  l !! i = Some w → bystander w w' → Forall2 bystander l (<[i:=w']> l).
Proof.
  intros Hi Hb.
  apply Forall2_same_length_lookup_2; [by rewrite length_insert|].
  intros j x y Hx Hy. destruct (decide (i = j)) as [->|Hne].
  - rewrite list_lookup_insert_eq in Hy by (by eapply lookup_lt_Some).
    by simplify_eq.
  - rewrite list_lookup_insert_ne in Hy by done. simplify_eq. constructor.
Qed.

Lemma same_refl l : Forall2 bystander l l.
Proof. apply Forall_Forall2_diag, Forall_forall. intros; constructor. Qed.

Lemma notify_one_shape pick s :
  ∃ pool' o,
    notify_one pick s = emit [EvNotifyOne o] (set_pool (λ _, pool') s) ∧
    Forall2 bystander (pool_ s) pool'.
Proof.
  unfold notify_one.
  destruct (parked s !! (pick `mod` length (parked s))) as [i|].
  - exists (alter wake i (pool_ s)), (Some i). split; [done|].
    apply Forall2_same_length_lookup_2; [by rewrite length_alter|].
    intros j w w' Hw Hw'. destruct (decide (i = j)) as [->|Hne].
    + rewrite list_lookup_alter_eq, Hw in Hw'. simplify_eq/=.
      apply wake_bystander.
    + rewrite list_lookup_alter_ne, Hw in Hw' by done. simplify_eq. constructor.
  - exists (pool_ s), None. split; [by destruct s|]. apply same_refl.
Qed.

Lemma notify_all_same s : Forall2 bystander (pool_ s) (pool_ (notify_all s)).
Proof.
  simpl. apply Forall2_fmap_r, Forall_Forall2_diag, Forall_forall.
  intros; apply wake_bystander.
Qed.

Ltac env_cases Hs :=
  match type of Hs with
  | step ?l ?s = Some _ => destruct l; simpl in Hs; try done
  end;
  unfold commit_begin, commit_end, spurious_wakeup, dtor_step in Hs;
  simpl in Hs;
  repeat match type of Hs with
    | context [?o ≫= _] => destruct o eqn:?; simpl in Hs
    | context [if ?b then _ else _] => destruct b eqn:?; simpl in Hs
    | context [match ?x with _ => _ end] => destruct x eqn:?; simpl in Hs
    end;
  try discriminate Hs;
  injection Hs as <-;
  try match goal with
    | |- context [notify_one ?p ?s0] =>
        let HF := fresh "HF" in
        let Heq := fresh "Heq" in
        destruct (notify_one_shape p s0) as (? & ? & Heq & HF);
        rewrite Heq in *; clear Heq; simpl in HF
    end.

(** Only [start] adds threads, and only to a live object. *)
Lemma step_env_same l s s' :
  step l s = Some s' → is_worker_label l = false →
  Forall2 bystander (pool_ s) (pool_ s') ∨
  l = LStart ∧ dtor s = None ∧ dtor s' = None ∧
    pool_ s' = pool_ s ++ replicate (Z.to_nat (core_ s)) fresh_thread.
Proof.
  intros Hs Hl. env_cases Hs; simpl.
  all: try (left; apply same_refl).
  - right. unfold alive in *. by destruct (dtor s).
  - by left.
  - left. eapply insert_same; [done|]. constructor.
    unfold is_parked in *. by destruct (wpc _).
  - left. apply notify_all_same.
  - left. eapply insert_same; [done|]. by constructor.
Qed.

Lemma step_env l s s' :
  step l s = Some s' → is_worker_label l = false →
  pool_env (pool_ s) (pool_ s').
Proof.
  intros Hs Hl.
  destruct (step_env_same _ _ _ Hs Hl) as [HF|(_ & _ & _ & ->)].
  - by apply same_env.
  - eexists _, _. split; [done|]. apply same_refl.
Qed.

Lemma lock_inv_holder s i w :
  lock_inv s → pool_ s !! i = Some w → holds_lock (wpc w) = true →
  oper_lock_ s = Some i.
Proof. intros HL Hw Hh. apply HL. by rewrite Hw. Qed.

Lemma bystander_holds w w' :
  bystander w w' → holds_lock (wpc w') = holds_lock (wpc w).
Proof. destruct 1 as [w|w Hw|w Hw]; simpl; by rewrite ?Hw. Qed.

Lemma pool_env_holding l l' i :
  pool_env l l' → holding (l' !! i) = holding (l !! i).
Proof.
  intros HE. destruct (l' !! i) as [w'|] eqn:Hw'.
  - destruct (pool_env_lookup_r _ _ _ _ HE Hw') as [(w & -> & Hb)|[-> ->]];
      [|done].
    simpl. by apply bystander_holds.
  - destruct (l !! i) as [w|] eqn:Hw; [|done].
    destruct (pool_env_lookup_l _ _ _ _ HE Hw) as (w' & ? & _). congruence.
Qed.

Lemma lock_inv_env s s' :
  pool_env (pool_ s) (pool_ s') → oper_lock_ s' = oper_lock_ s →
  lock_inv s → lock_inv s'.
Proof.
  intros HE Hl HL i. rewrite Hl, (pool_env_holding _ _ _ HE). apply HL.
Qed.

Ltac worker_cases H w Hw :=
  unfold worker_step in H;
  match type of H with
  | context [pool_ ?s !! ?i] =>
      destruct (pool_ s !! i) as [w|] eqn:Hw; simpl in H; [|done]
  end;
  let Hpc := fresh "Hpc" in
  destruct (wpc w) eqn:Hpc;
  repeat match type of H with
    | context [if ?b then _ else _] => destruct b eqn:?
    | context [match ?x with _ => _ end] => destruct x eqn:?
    end;
  try discriminate H;
  injection H as <-.

Lemma lookup_insert_is_Some' {A} (l : list A) i j x y :
  l !! i = Some y →
  <[i:=x]> l !! j = if decide (i = j) then Some x else l !! j.
Proof.
  intros Hi. rewrite list_lookup_insert. destruct (decide (i = j)) as [->|].
  - apply lookup_lt_Some in Hi. rewrite decide_True; done.
  - rewrite decide_False; [done|]. intros [? _]. done.
Qed.

Lemma lock_inv_worker i s s' :
  lock_inv s → worker_step i s = Some s' → lock_inv s'.
Proof.
  intros HL Hs. worker_cases Hs w Hw.
  all: intros j; simpl.
  all: rewrite ?(lookup_insert_is_Some' _ _ _ _ _ Hw).
  all: pose proof (HL i) as Hi; rewrite Hw in Hi; simpl in Hi;
       rewrite Hpc in Hi; simpl in Hi.
  all: pose proof (HL j) as Hj.
  all: destruct (decide (i = j)); subst; simpl.
  all: intuition congruence.
Qed.

(** Steps of other threads leave the mutex alone and never reset [quit_];
    to the queue they can only append, and that when the mutex is free,
    until the end of the destructor destroys it. *)
Lemma step_env_frame l s s' :
  step l s = Some s' → is_worker_label l = false →
  oper_lock_ s' = oper_lock_ s ∧
  (quit_ s = true → quit_ s' = true) ∧
  (tasks_ s' = tasks_ s ∨
   (∃ t, tasks_ s' = tasks_ s ++ [t] ∧ oper_lock_ s = None) ∨
   (∃ k, dtor s = Some (DJoin k) ∧ pool_ s !! k = None ∧
         s' = set_dtor (Some DDone) (destroy_members s))).
Proof.
  intros Hs Hl. env_cases Hs; simpl; eauto 8.
Qed.

Lemma worker_label_inv l : is_worker_label l = true → ∃ i, l = LWorker i.
Proof. destruct l; try done. eauto. Qed.

Lemma dtor_inv_worker i s s' :
  dtor_inv s → worker_step i s = Some s' → dtor_inv s'.
Proof.
  intros HI Hs. worker_cases Hs w Hw.
  all: intros j wj; simpl.
  all: rewrite ?(lookup_insert_is_Some' _ _ _ _ _ Hw).
  all: pose proof (HI i w Hw) as Hi; unfold join_ok, joined in Hi;
       rewrite Hpc in Hi.
  all: destruct (decide (i = j)); subst; intros Hj; simplify_eq/=.
  all: try (by apply (HI j wj)).
  all: unfold join_ok, joined; simpl.
  all: destruct (dtor s) as [[|k|]|]; simpl in *; intuition congruence.
Qed.

Lemma join_ok_bystander d j w w' :
  bystander w w' → join_ok d j w → join_ok d j w'.
Proof.
  unfold join_ok, joined.
  destruct 1 as [w|w Hp|w Hp]; simpl; rewrite ?Hp; [done|..].
  - destruct d as [[|k|]|]; intuition congruence.
  - destruct d as [[|k|]|]; intuition congruence.
Qed.

Lemma dtor_inv_destroy s s' : dtor_inv s → dtor_step s = Some s' → dtor_inv s'.
Proof.
  intros HI Hs. unfold dtor_step in Hs.
  destruct (dtor s) as [[|k|]|] eqn:Hd; simplify_eq/=.
  - intros j w' Hw'. simpl in Hw'.
    apply list_lookup_fmap_Some in Hw' as (w & -> & Hw).
    specialize (HI j w Hw). rewrite Hd in HI.
    eapply join_ok_bystander; [apply wake_bystander|].
    unfold join_ok in *. simpl. split; [lia|tauto].
  - destruct (pool_ s !! k) as [t|] eqn:Ht; simplify_eq/=.
    + destruct (joinable t) eqn:Hj; simplify_eq/=.
      * destruct (wpc t) eqn:Hpc; simplify_eq/=.
        intros j w Hw. simpl in Hw.
        rewrite (lookup_insert_is_Some' _ _ _ _ _ Ht) in Hw.
        destruct (decide (k = j)); simplify_eq/=.
        -- by unfold join_ok, joined.
        -- specialize (HI j w Hw). rewrite Hd in HI. unfold join_ok in *.
           simpl. split; [|tauto]. intros Hlt. apply HI. lia.
      * intros j w Hw. simpl in Hw. pose proof (HI j w Hw) as Hj'.
        rewrite Hd in Hj'. unfold join_ok in *. simpl. split; [|tauto].
        intros Hlt. destruct (decide (j = k)) as [->|].
        -- simplify_eq. unfold joined. tauto.
        -- apply Hj'. lia.
    + intros j w Hw. simpl in Hw. pose proof (HI j w Hw) as Hj'.
      rewrite Hd in Hj'. unfold join_ok in *. simpl. split; [|tauto].
      apply Hj'. apply lookup_lt_Some in Hw. apply lookup_ge_None in Ht. lia.
  - intros j w Hw. simpl in Hw. specialize (HI j w Hw). rewrite Hd in HI.
    unfold join_ok in *. simpl. tauto.
Qed.

Lemma step_env_dtor l s s' :
  step l s = Some s' → is_worker_label l = false → l ≠ LDestroy →
  dtor s' = dtor s.
Proof. intros Hs Hl Hd. env_cases Hs; simpl; done. Qed.

Lemma dtor_inv_env l s s' :
  dtor_inv s → step l s = Some s' → is_worker_label l = false → dtor_inv s'.
Proof.
  intros HI Hs Hl.
  assert (l = LDestroy ∨ l ≠ LDestroy) as [->|Hd]
    by (destruct l; auto; by right).
  { by eapply dtor_inv_destroy. }
  pose proof (step_env_dtor _ _ _ Hs Hl Hd) as Hsame.
  unfold dtor_inv in *. rewrite Hsame.
  destruct (step_env_same _ _ _ Hs Hl) as [HF|(_ & Hnone & _ & Hpool)].
  - intros j w' Hw'.
    destruct (Forall2_lookup_r _ _ _ _ _ HF Hw') as (w & Hw & Hb).
    eapply join_ok_bystander; [done|]. by apply HI.
  - intros j w' Hw'. rewrite Hpool in Hw'.
    apply lookup_app_Some in Hw' as [Hw'|[_ Hw']]; [by apply HI|].
    apply lookup_replicate in Hw' as [-> _]. rewrite Hnone. done.
Qed.

Lemma dtor_inv_step l s s' : dtor_inv s → step l s = Some s' → dtor_inv s'.
Proof.
  intros HI Hs. destruct (is_worker_label l) eqn:Hl.
  - apply worker_label_inv in Hl as [i ->]. by eapply dtor_inv_worker.
  - by eapply dtor_inv_env.
Qed.

Lemma queue_inv_env l s s' :
  step l s = Some s' → is_worker_label l = false →
  lock_inv s → dtor_inv s → queue_inv s → queue_inv s'.
Proof.
  intros Hs Hl HL HD HQ j w' Hw'.
  destruct (step_env_frame _ _ _ Hs Hl) as (Hlock & Hquit & Htasks).
  destruct Htasks as [Htasks|[(t & Htasks & Hnone)|(k & Hd & Hk & ->)]].
  - destruct (pool_env_lookup_r _ _ _ _ (step_env _ _ _ Hs Hl) Hw')
      as [(w & Hw & Hb)|[_ ->]]; [|done].
    specialize (HQ j w Hw). rewrite Htasks.
    destruct Hb as [w|w Hp|w Hp]; simpl; [|done..].
    destruct (wpc w); simpl in *; try done. tauto.
  - destruct (pool_env_lookup_r _ _ _ _ (step_env _ _ _ Hs Hl) Hw')
      as [(w & Hw & Hb)|[_ ->]]; [|done].
    specialize (HQ j w Hw). pose proof (lock_inv_holder s j w HL Hw) as HL1.
    rewrite Hnone in HL1.
    destruct Hb as [w|w Hp|w Hp]; simpl; [|done..].
    destruct (wpc w); simpl in *; try done; by specialize (HL1 eq_refl).
  - simpl in Hw'. destruct (HD j w' Hw') as [Hj _]. rewrite Hd in Hj.
    destruct Hj as [-> _]; [|done].
    apply lookup_lt_Some in Hw'. apply lookup_ge_None in Hk. lia.
Qed.

Lemma queue_inv_worker i s s' :
  lock_inv s → queue_inv s → worker_step i s = Some s' → queue_inv s'.
Proof.
  intros HL HQ Hs. worker_cases Hs w Hw.
  all: intros j wj; simpl.
  all: rewrite ?(lookup_insert_is_Some' _ _ _ _ _ Hw).
  all: pose proof (lock_inv_holder s i w HL Hw) as HLi;
       rewrite Hpc in HLi; simpl in HLi.
  all: pose proof (HQ i w Hw) as HQi; rewrite Hpc in HQi; simpl in HQi.
  all: destruct (decide (i = j)); subst.
  all: intros Hj; simplify_eq/=.
  all: try done.
  all: try (pose proof (lock_inv_holder s j wj HL Hj) as HL1j;
            pose proof (HQ j wj Hj) as HQj).
  all: try (destruct (wpc wj); simpl in *; intuition congruence).
  all: destruct (quit_ s), (tasks_ s); simpl in *; intuition congruence.
Qed.

Lemma lock_inv_step l s s' : lock_inv s → step l s = Some s' → lock_inv s'.
Proof.
  intros HL Hs. destruct (is_worker_label l) eqn:Hl.
  - apply worker_label_inv in Hl as [i ->]. by eapply lock_inv_worker.
  - eapply lock_inv_env; [by eapply step_env| |done].
    by destruct (step_env_frame _ _ _ Hs Hl).
Qed.

Lemma queue_inv_step l s s' :
  lock_inv s → dtor_inv s → queue_inv s → step l s = Some s' → queue_inv s'.
Proof.
  intros HL HD HQ Hs. destruct (is_worker_label l) eqn:Hl.
  - apply worker_label_inv in Hl as [i ->]. by eapply queue_inv_worker.
  - by eapply queue_inv_env.
Qed.

Lemma lock_inv_init core max cache : lock_inv (ThreadPool_ctor core max cache).
Proof. intros i. simpl. split; done. Qed.

Lemma reachable_lock_queue s :
  reachable s → lock_inv s ∧ dtor_inv s ∧ queue_inv s.
Proof.
  induction 1 as [core max cache|l s s' _ (HL & HD & HQ) Hs]
    using reachable_ind.
  - split; [apply lock_inv_init|]. split; intros i w Hw; done.
  - split; [by eapply lock_inv_step|].
    split; [by eapply dtor_inv_step|by eapply queue_inv_step].
Qed.

(** C9: whenever a worker stands at [front()] / [pop()] (lines 59-60) the
    queue holds a task, so the dequeue is defined; no interleaving drives a
    worker into the undefined behaviour of [front()] on an empty queue.  The
    wait predicate leaves a worker at the exit check only with [quit_] set or
    a task queued, and the step it takes at [front()] removes the head. *)
Theorem front_defined_at_dequeue s i w :
  reachable s → pool_ s !! i = Some w →
  (wpc w = AtCheck → quit_ s = true ∨ tasks_ s ≠ []) ∧
  (wpc w = AtFront →
     ∃ task q s', tasks_ s = task :: q ∧
       worker_step i s = Some s' ∧ tasks_ s' = q ∧
       wpc <$> pool_ s' !! i = Some (AtCall task)) ∧
  wpc w ≠ Undefined.
Proof.
  intros Hr Hw. destruct (reachable_lock_queue s Hr) as (_ & _ & HQ).
  specialize (HQ i w Hw). split; [|split].
  - intros Hpc. by rewrite Hpc in HQ.
  - intros Hpc. rewrite Hpc in HQ. simpl in HQ.
    destruct (tasks_ s) as [|task q] eqn:Hq; [done|].
    exists task, q. unfold worker_step. rewrite Hw. simpl. rewrite Hpc, Hq.
    eexists. split; [done|]. split; [done|]. simpl.
    rewrite list_lookup_insert_eq by (by eapply lookup_lt_Some). done.
  - intros Hpc. by rewrite Hpc in HQ.
Qed.

Lemma front_defined_at_dequeue_witness :
  ∃ task q s', tasks_ dequeue_pool = task :: q ∧
    worker_step 0 dequeue_pool = Some s' ∧ tasks_ s' = q ∧
    wpc <$> pool_ s' !! 0 = Some (AtCall task).
Proof.
  assert (Hr : reachable dequeue_pool).
  { exists 1%Z, 0%Z, 0%Z, dequeue_trace. vm_compute. reflexivity. }
  destruct (front_defined_at_dequeue dequeue_pool 0 _ Hr eq_refl) as (_ & H & _).
  exact (H eq_refl).
Defined.

Lemma local_inv_step l s s' : local_inv s → step l s = Some s' → local_inv s'.
Proof.
  intros HI Hs. destruct (is_worker_label l) eqn:Hl.
  - apply worker_label_inv in Hl as [i ->].
    change (worker_step i s = Some s') in Hs.
    worker_cases Hs w Hw.
    all: intros j wj; simpl.
    all: rewrite ?(lookup_insert_is_Some' _ _ _ _ _ Hw).
    all: pose proof (HI i w Hw) as (H1 & H2 & H3); rewrite Hpc in H2, H3.
    all: destruct (decide (i = j)); subst; intros Hj; simplify_eq/=.
    all: try (by apply (HI j wj)).
    all: unfold local_ok in *; simpl; try (intuition congruence).
    destruct (quit_ s); simpl in *; intuition congruence.
  - intros j w' Hw'.
    destruct (step_env_frame _ _ _ Hs Hl) as (_ & Hquit & _).
    destruct (pool_env_lookup_r _ _ _ _ (step_env _ _ _ Hs Hl) Hw')
      as [(w & Hw & Hb)|[_ ->]]; [|done].
    destruct (HI j w Hw) as (H1 & H2 & H3).
    destruct Hb as [w|w Hp|w Hp]; unfold local_ok; simpl;
      rewrite ?Hp in *; intuition congruence.
Qed.

(** ** First in, first out *)

Lemma emplaced_emit evs s :
  emplaced (emit evs s) = emplaced s ++ omap emplaced_of evs.
Proof. unfold emplaced. simpl. by rewrite omap_app. Qed.

Lemma popped_emit evs s :
  popped (emit evs s) = popped s ++ omap popped_of evs.
Proof. unfold popped. simpl. by rewrite omap_app. Qed.

Lemma invoked_emit evs s :
  invoked (emit evs s) = invoked s ++ omap invoked_of evs.
Proof. unfold invoked. simpl. by rewrite omap_app. Qed.

Lemma abandoned_emit evs s :
  abandoned (emit evs s) = abandoned s ++ omap abandoned_of evs.
Proof. unfold abandoned. simpl. by rewrite omap_app. Qed.

Lemma emplaced_of_abandon (q : list Task) : omap emplaced_of (EvAbandon <$> q) = [].
Proof. induction q; [done|]. by rewrite fmap_cons. Qed.

Lemma popped_of_abandon (q : list Task) : omap popped_of (EvAbandon <$> q) = [].
Proof. induction q; [done|]. by rewrite fmap_cons. Qed.

Lemma invoked_of_abandon (q : list Task) : omap invoked_of (EvAbandon <$> q) = [].
Proof. induction q; [done|]. by rewrite fmap_cons. Qed.

Lemma abandoned_of_abandon (q : list Task) : omap abandoned_of (EvAbandon <$> q) = q.
Proof.
  induction q as [|t q IH]; [done|]. rewrite fmap_cons. simpl.
  f_equal. exact IH.
Qed.

(** A thread moves only while the members exist: the destructor destroys
    them after it has joined every thread. *)
Lemma worker_not_destroyed i s s' :
  dtor_inv s → worker_step i s = Some s' →
  destroyed s = false ∧ dtor s' = dtor s.
Proof.
  intros HD Hs. split.
  - unfold destroyed. destruct (dtor s) as [[|k|]|] eqn:Hd; try done.
    unfold worker_step in Hs. destruct (pool_ s !! i) as [w|] eqn:Hw; [|done].
    destruct (HD i w Hw) as [Hj _]. rewrite Hd in Hj. destruct Hj as [Hpc _].
    simpl in Hs. by rewrite Hpc in Hs.
  - worker_cases Hs w Hw; done.
Qed.

Lemma abandoned_inv_step l s s' :
  dtor_inv s → abandoned_inv s → step l s = Some s' → abandoned_inv s'.
Proof.
  unfold abandoned_inv. intros HD HI Hs.
  destruct (is_worker_label l) eqn:Hl.
  - apply worker_label_inv in Hl as [i ->].
    change (worker_step i s = Some s') in Hs.
    destruct (worker_not_destroyed i s s' HD Hs) as [Hnd Hsame].
    unfold destroyed in *. rewrite Hsame. rewrite Hnd in HI.
    destruct (dtor s) as [[|k|]|]; try done.
    all: worker_cases Hs w Hw.
    all: unfold abandoned in *; simpl; rewrite ?omap_app; simpl;
         rewrite ?app_nil_r; done.
  - env_cases Hs.
    all: unfold destroyed, alive, abandoned in *; simpl in *.
    all: repeat match goal with
           | H : context [match dtor ?x with _ => _ end] |- _ =>
               destruct (dtor x) as [[| |]|]; simplify_eq/=
           | |- context [match dtor ?x with _ => _ end] =>
               destruct (dtor x) as [[| |]|]; simplify_eq/=
           end.
    all: rewrite ?omap_app; simpl; rewrite ?app_nil_r; try done.
Qed.

Lemma fifo_inv_step l s s' :
  dtor_inv s → abandoned_inv s → fifo_inv s → step l s = Some s' →
  fifo_inv s'.
Proof.
  unfold fifo_inv. intros HD HA HI Hs.
  destruct (is_worker_label l) eqn:Hl.
  - apply worker_label_inv in Hl as [i ->].
    change (worker_step i s = Some s') in Hs.
    destruct (worker_not_destroyed i s s' HD Hs) as [Hnd _].
    unfold abandoned_inv in HA. rewrite Hnd in HA.
    assert (Ha' : abandoned s' = []).
    { rewrite <-HA. clear HI. unfold abandoned.
      worker_cases Hs w Hw; simpl; rewrite ?omap_app; simpl;
        by rewrite ?app_nil_r. }
    rewrite HA in HI. rewrite Ha'. simpl in *. clear HA Ha'.
    unfold popped, emplaced in *.
    worker_cases Hs w Hw.
    all: simpl; rewrite ?omap_app; simpl; rewrite ?app_nil_r.
    all: try done.
    + match goal with H : tasks_ s = _ |- _ => by rewrite H end.
    + by rewrite <-HI, <-app_assoc.
  - unfold abandoned_inv in HA. env_cases Hs.
    all: unfold popped, emplaced, abandoned in *.
    all: simpl; rewrite ?omap_app; simpl; rewrite ?app_nil_r.
    all: rewrite ?emplaced_of_abandon, ?popped_of_abandon,
           ?abandoned_of_abandon, ?app_nil_r.
    all: try done.
    by rewrite <-HI, <-!app_assoc.
Qed.

(** ** Book-keeping of the tasks *)

Lemma bystander_running w w' : bystander w w' → running w' = running w.
Proof. destruct 1 as [w|w Hw|w Hw]; unfold running; simpl; by rewrite ?Hw. Qed.

Lemma fresh_threads_running n :
  replicate n fresh_thread ≫= running = [].
Proof.
  induction n as [|n IH]; [done|].
  change (replicate (S n) fresh_thread)
    with (fresh_thread :: replicate n fresh_thread).
  by rewrite bind_cons, IH.
Qed.

Lemma pool_env_running l l' : pool_env l l' → l' ≫= running = l ≫= running.
Proof.
  intros (l1 & n & -> & HF).
  rewrite bind_app, fresh_threads_running, app_nil_r. induction HF as [|w w' l l1 Hb _ IH]; [done|].
  rewrite !bind_cons, IH. f_equal. by apply bystander_running.
Qed.

(** The tasks run by the threads other than [i]. *)
Lemma executing_split s i w :
  pool_ s !! i = Some w →
  ∃ R, executing s ≡ₚ running w ++ R ∧
       ∀ w', <[i:=w']> (pool_ s) ≫= running ≡ₚ running w' ++ R.
Proof.
  intros Hw. exists ((take i (pool_ s) ≫= running) ++
                     (drop (S i) (pool_ s) ≫= running)).
  split.
  - unfold executing. rewrite <-(take_drop_middle _ _ _ Hw) at 1.
    rewrite bind_app, bind_cons.
    by rewrite (assoc (++)), (comm (++) _ (running w)), <-(assoc (++)).
  - intros w'. rewrite insert_take_drop by (by eapply lookup_lt_Some).
    rewrite bind_app, bind_cons.
    by rewrite (assoc (++)), (comm (++) _ (running w')), <-(assoc (++)).
Qed.

Lemma call_tasks_delete (cs : list Call) k c :
  cs !! k = Some c → cs ≫= call_task ≡ₚ call_task c ++ (delete k cs ≫= call_task).
Proof.
  intros Hk. rewrite <-(take_drop_middle _ _ _ Hk) at 1.
  rewrite delete_take_drop, !bind_app, bind_cons.
  by rewrite (assoc (++)), (comm (++) _ (call_task c)), <-(assoc (++)).
Qed.

Lemma invoke_Some t h h' :
  invoke t h = Some h' → h !! tid t = Some None ∧ h' = <[tid t := Some (work t)]> h.
Proof.
  unfold invoke. destruct (h !! tid t) as [[o|]|]; try done.
  by intros [= <-].
Qed.

Lemma invoke_None t h : invoke t h = None → h !! tid t ≠ Some None.
Proof. unfold invoke. by destruct (h !! tid t) as [[o|]|]. Qed.

Ltac log_simpl :=
  unfold emplaced, invoked, popped, abandoned, call_tasks; simpl;
  rewrite ?omap_app; simpl;
  rewrite ?emplaced_of_abandon, ?popped_of_abandon, ?invoked_of_abandon,
    ?abandoned_of_abandon, ?app_nil_r.

Lemma worker_step_account i s s' :
  worker_step i s = Some s' → account_step s s'.
Proof.
  intros Hs. worker_cases Hs w Hw.
  all: destruct (executing_split s i w Hw) as (R & HR & HR').
  all: unfold running in HR; rewrite Hpc in HR; simpl in HR.
  all: try (apply acc_idle;
    [by log_simpl|by log_simpl|by log_simpl
    |unfold executing; simpl; by rewrite HR', HR|done|done|done]).
  - apply (acc_pop _ _ t); try (by log_simpl).
    unfold executing; simpl. by rewrite HR', HR.
  - match goal with H : invoke _ _ = Some _ |- _ =>
      apply invoke_Some in H as [Hf ->] end.
    apply (acc_invoke _ _ t); try (by log_simpl).
    unfold executing; simpl. by rewrite HR', HR.
  - match goal with H : invoke _ _ = None |- _ => apply invoke_None in H end.
    apply (acc_abort _ _ t); [|done]. rewrite HR. by left.
Qed.

Lemma env_step_account l s s' :
  step l s = Some s' → is_worker_label l = false → account_step s s'.
Proof.
  intros Hs Hl. pose proof (step_env _ _ _ Hs Hl) as HE.
  apply pool_env_running in HE. fold (executing s) (executing s') in HE.
  env_cases Hs.
  all: try (apply acc_idle; try done; try (by log_simpl); by rewrite HE).
  - apply (acc_alloc _ _ (mkTask (length (futures s)) f)); try done.
    log_simpl. by rewrite bind_app.
  - apply (acc_enqueue _ _ t); try done; try (by log_simpl); [|by rewrite HE].
    unfold call_tasks; simpl.
    match goal with H : calls s !! _ = Some _ |- _ =>
      by rewrite (call_tasks_delete _ _ _ H) end.
  - apply acc_idle;
      [by log_simpl|by log_simpl|by log_simpl|by rewrite HE|done| |done].
    unfold call_tasks; simpl. by rewrite bind_app, app_nil_r.
  - apply acc_idle;
      [by log_simpl|by log_simpl|by log_simpl|by rewrite HE|done| |done].
    unfold call_tasks; simpl.
    match goal with H : calls s !! _ = Some _ |- _ =>
      by rewrite (call_tasks_delete _ _ _ H) end.
  - apply acc_destroy; try done; by log_simpl.
Qed.

Lemma step_account l s s' : step l s = Some s' → account_step s s'.
Proof.
  intros Hs. destruct (is_worker_label l) eqn:Hl.
  - apply worker_label_inv in Hl as [i ->]. by eapply worker_step_account.
  - by eapply env_step_account.
Qed.

Lemma abandon_lookup t h j :
  abandon t h !! j = if decide (j = tid t) then mark_broken (h !! j) else h !! j.
Proof.
  unfold abandon. destruct (decide (j = tid t)) as [->|Hne].
  - destruct (h !! tid t) as [[o|]|] eqn:E; simpl; try done.
    rewrite list_lookup_insert_eq; [done|]. by eapply lookup_lt_Some.
  - destruct (h !! tid t) as [[o|]|] eqn:E; simpl; try done.
    by rewrite list_lookup_insert_ne.
Qed.

Lemma mark_broken_idemp o : mark_broken (mark_broken o) = mark_broken o.
Proof. by destruct o as [[?|]|]. Qed.

Lemma foldr_abandon_lookup h q j :
  foldr abandon h q !! j =
    if decide (j ∈ tid <$> q) then mark_broken (h !! j) else h !! j.
Proof.
  induction q as [|t q IH].
  - destruct (decide (j ∈ tid <$> [])) as [Hin|]; [|done].
    by apply elem_of_nil in Hin.
  - change (foldr abandon h (t :: q)) with (abandon t (foldr abandon h q)).
    rewrite abandon_lookup, IH, fmap_cons.
    destruct (decide (j ∈ tid t :: (tid <$> q))) as [Hc|Hc];
      destruct (decide (j = tid t)) as [->|Hne];
      destruct (decide (_ ∈ tid <$> q)) as [Hin|Hnin]; try done.
    + apply mark_broken_idemp.
    + by apply elem_of_cons in Hc as [?|?].
    + exfalso. apply Hc. by left.
    + exfalso. apply Hc. by left.
    + exfalso. apply Hc. by right.
Qed.

Lemma account_all s :
  account_inv s →
  NoDup (tid <$> (invoked s ++ executing s ++ tasks_ s ++ abandoned s ++
                  call_tasks s)).
Proof.
  intros [Hp Hn _ _ _]. rewrite Hp in Hn. by rewrite <-!(assoc (++)) in Hn.
Qed.

Lemma account_bound s t :
  account_inv s → t ∈ emplaced s ++ call_tasks s →
  tid t < length (futures s).
Proof.
  intros [Hp _ Hpend Hdone Hbr] Ht. rewrite Hp in Ht.
  rewrite !elem_of_app in Ht. specialize (Hpend t). specialize (Hdone t).
  specialize (Hbr t). rewrite !elem_of_app in Hpend.
  destruct Ht as [[Ht|[Ht|[Ht|Ht]]]|Ht]; eapply lookup_lt_Some; eauto.
Qed.

Lemma account_inv_init core max cache :
  account_inv (ThreadPool_ctor core max cache).
Proof.
  split; simpl; try done.
  - constructor.
  - intros t Ht. inversion Ht.
  - intros t Ht. inversion Ht.
  - intros t Ht. inversion Ht.
Qed.

Lemma account_inv_preserved s s' :
  account_inv s → account_step s s' → account_inv s'.
Proof.
  intros HI Hstep. pose proof (account_all s HI) as Hall.
  pose proof (λ t, account_bound s t HI) as Hbound.
  destruct HI as [Hp Hn Hpend Hdone Hbr].
  destruct Hstep as [He Hi Ha Hx Hq Hc Hf|t Ht Hf Hc He Hi Ha Hx Hq
                    |t Hc Hq He Hi Ha Hx Hf|t Hq Hx He Hi Ha Hc Hf
                    |t Hx Hi Hft Hf He Hq Ha Hc|t Ht Hft
                    |Hq Ha Hf He Hi Hx Hc].
  - split; rewrite ?He, ?Hi, ?Ha, ?Hx, ?Hq, ?Hc, ?Hf; try done.
    intros t. rewrite Hx, Hc. apply Hpend.
  - split; rewrite ?He, ?Hi, ?Ha, ?Hx, ?Hq, ?Hc, ?Hf; try done.
    + rewrite (assoc (++)), fmap_app. apply NoDup_app. split; [done|].
      split; [|apply NoDup_singleton].
      intros x Hx' Hin. apply list_elem_of_fmap in Hx' as (t' & -> & Ht').
      apply list_elem_of_singleton in Hin. simpl in Hin.
      apply Hbound in Ht'. lia.
    + intros t'. rewrite !(assoc (++)). intros Hin.
      apply elem_of_app in Hin as [Hin|Hin].
      * apply lookup_app_l_Some, Hpend. by rewrite !(assoc (++)).
      * apply list_elem_of_singleton in Hin as ->.
        rewrite lookup_app_r by lia. by rewrite Ht, Nat.sub_diag.
    + intros t' Hin. by apply lookup_app_l_Some, Hdone.
    + intros t' Hin. by apply lookup_app_l_Some, Hbr.
  - split; rewrite ?He, ?Hi, ?Ha, ?Hx, ?Hq, ?Hf; try done.
    + rewrite Hp. rewrite <-!(assoc (++)).
      do 3 (apply Permutation_app_head). apply Permutation_app_comm.
    + rewrite <-(assoc (++)). simpl. by rewrite <-Hc.
    + intros t'. rewrite Hx, <-(assoc (++)). simpl. rewrite <-Hc. apply Hpend.
  - split; rewrite ?He, ?Hi, ?Ha, ?Hx, ?Hc, ?Hf; try done.
    + rewrite Hp, Hq. simpl. apply Permutation_app_head.
      symmetry. apply Permutation_middle.
    + rewrite Hq in Hpend. intros t'. rewrite Hx. simpl.
      rewrite Permutation_middle. apply Hpend.
  - rewrite Hx in Hall. setoid_rewrite Hx in Hpend.
    assert (Hlt : tid t < length (futures s)) by (by eapply lookup_lt_Some).
    rewrite fmap_app in Hall. apply NoDup_app in Hall as (_ & Hdisj & Hrest).
    simpl in Hrest. apply NoDup_cons in Hrest as [Hfresh _].
    split; rewrite ?He, ?Hi, ?Hq, ?Ha, ?Hc, ?Hf; try done.
    + rewrite Hp, Hx. rewrite <-(assoc (++)). simpl.
      by rewrite Permutation_middle.
    + intros t' Hin. rewrite list_lookup_insert_ne.
      * apply Hpend. simpl. by right.
      * intros Heq. apply Hfresh. rewrite Heq. apply list_elem_of_fmap_2.
        rewrite !elem_of_app in *. tauto.
    + intros t' Hin. apply elem_of_app in Hin as [Hin|Hin].
      * rewrite list_lookup_insert_ne; [by apply Hdone|].
        intros Heq. apply (Hdisj (tid t')); [by apply list_elem_of_fmap_2|].
        rewrite <-Heq. simpl. by left.
      * apply list_elem_of_singleton in Hin as ->.
        by rewrite list_lookup_insert_eq.
    + intros t' Hin. rewrite list_lookup_insert_ne; [by apply Hbr|].
      intros Heq. apply Hfresh. rewrite Heq. apply list_elem_of_fmap_2.
      rewrite !elem_of_app. tauto.
  - exfalso. apply Hft, Hpend. apply elem_of_app. by left.
  - assert (Hout : ∀ t, t ∈ invoked s ++ executing s ++ abandoned s ++
                          call_tasks s → tid t ∉ tid <$> tasks_ s).
    { intros t Hin Hq'.
      assert (Hsplit : invoked s ++ executing s ++ tasks_ s ++ abandoned s ++
                call_tasks s ≡ₚ tasks_ s ++ (invoked s ++ executing s ++
                abandoned s ++ call_tasks s)).
      { rewrite (assoc (++) (invoked s)).
        rewrite (Permutation_app_swap_app (invoked s ++ executing s)).
        by rewrite <-(assoc (++) (invoked s)). }
      rewrite Hsplit, fmap_app in Hall.
      apply NoDup_app in Hall as (_ & Hdisj & _).
      apply (Hdisj _ Hq'). by apply list_elem_of_fmap_2. }
    assert (Hsame : ∀ t, t ∈ invoked s ++ executing s ++ abandoned s ++
                          call_tasks s →
                    futures s' !! tid t = futures s !! tid t).
    { intros t Hin. rewrite Hf, foldr_abandon_lookup.
      rewrite decide_False; [done|]. by apply Hout. }
    split; rewrite ?He, ?Hi, ?Hq, ?Ha, ?Hc; try done.
    + rewrite Hp, Hx. simpl. do 2 (apply Permutation_app_head).
      apply Permutation_app_comm.
    + intros t Hin. rewrite Hsame.
      * apply Hpend. rewrite Hx in Hin. rewrite !elem_of_app in *.
        simpl in Hin. rewrite elem_of_nil in Hin. tauto.
      * rewrite Hx in Hin. rewrite !elem_of_app in *.
        simpl in Hin. rewrite elem_of_nil in Hin. tauto.
    + intros t Hin. rewrite Hsame; [by apply Hdone|].
      rewrite !elem_of_app. tauto.
    + intros t Hin. apply elem_of_app in Hin as [Hin|Hin].
      * rewrite Hsame; [by apply Hbr|]. rewrite !elem_of_app. tauto.
      * rewrite Hf, foldr_abandon_lookup.
        rewrite decide_True by (by apply list_elem_of_fmap_2).
        rewrite (Hpend t); [done|]. rewrite !elem_of_app. tauto.
Qed.

Lemma executing_lookup s i w t :
  pool_ s !! i = Some w → wpc w = AtCall t → t ∈ executing s.
Proof.
  intros Hw Hpc. destruct (executing_split s i w Hw) as (R & -> & _).
  unfold running. rewrite Hpc. by left.
Qed.

Lemma alive_inv_step l s s' :
  account_inv s → alive_inv s → step l s = Some s' → alive_inv s'.
Proof.
  intros HA HI Hs. destruct (is_worker_label l) eqn:Hl.
  - apply worker_label_inv in Hl as [i ->].
    change (worker_step i s = Some s') in Hs.
    worker_cases Hs w Hw.
    all: intros j wj; simpl.
    all: rewrite ?(lookup_insert_is_Some' _ _ _ _ _ Hw).
    all: destruct (decide (i = j)); subst; intros Hj; simplify_eq/=.
    all: try (by apply (HI j wj)).
    all: try done.
    exfalso.
    match goal with H : invoke _ _ = None |- _ => apply invoke_None in H;
      apply H end.
    apply (acc_pending _ HA), elem_of_app. left. by eapply executing_lookup.
  - intros j w' Hw'.
    destruct (pool_env_lookup_r _ _ _ _ (step_env _ _ _ Hs Hl) Hw')
      as [(w & Hw & Hb)|[_ ->]]; [|done].
    specialize (HI j w Hw). destruct Hb as [w|w Hp|w Hp]; simpl; done.
Qed.

Lemma pool_inv_init core max cache : pool_inv (ThreadPool_ctor core max cache).
Proof.
  split.
  - apply lock_inv_init.
  - intros i w Hw. done.
  - intros i w Hw. done.
  - done.
  - apply account_inv_init.
  - intros i w Hw. done.
  - intros i w Hw. done.
  - done.
Qed.

Lemma pool_inv_step l s s' : pool_inv s → step l s = Some s' → pool_inv s'.
Proof.
  intros [HL HQ HM HF HA HV HD HB] Hs. split.
  - by eapply lock_inv_step.
  - by eapply queue_inv_step.
  - by eapply local_inv_step.
  - by eapply fifo_inv_step.
  - eapply account_inv_preserved; [done|]. by eapply step_account.
  - by eapply alive_inv_step.
  - by eapply dtor_inv_step.
  - by eapply abandoned_inv_step.
Qed.

Lemma reachable_inv s : reachable s → pool_inv s.
Proof.
  induction 1 as [core max cache|l s s' _ IH Hs] using reachable_ind.
  - apply pool_inv_init.
  - by eapply pool_inv_step.
Qed.

Lemma run_inv tr s s' : pool_inv s → run tr s = Some s' → pool_inv s'.
Proof.
  revert s. induction tr as [|l tr IH]; intros s HI Hr; simpl in Hr.
  - by simplify_eq.
  - destruct (step l s) as [s1|] eqn:Hs; simpl in Hr; [|done].
    apply (IH s1); [by eapply pool_inv_step|done].
Qed.

Lemma worker_step_at i s w :
  pool_ s !! i = Some w →
  worker_step i s =
  match wpc w with
  | AtEntry =>
      if force_ s then Some (set_worker i (goto AtEntryQuit w) s)
      else Some (set_worker i (mkWorker AtLoop false (joinable w)) s)
  | AtEntryQuit =>
      Some (set_worker i (mkWorker AtLoop (quit_ s) (joinable w)) s)
  | AtLoop =>
      if quit_local w
      then Some (emit [EvExit i] (set_worker i (goto Returned w) s))
      else Some (set_worker i (goto AtLock w) s)
  | AtLock | Woken =>
      match oper_lock_ s with
      | Some _ => None
      | None =>
          Some (emit [EvLock (worker i)]
                  (set_lock (Some i) (set_worker i (goto AtPred w) s)))
      end
  | AtPred =>
      if quit_ s || negb (is_empty (tasks_ s))
      then Some (set_worker i (goto AtCheck w) s)
      else Some (set_worker i (goto AtWait w) s)
  | AtWait =>
      Some (emit [EvUnlock (worker i)]
              (set_lock None (set_worker i (goto Parked w) s)))
  | Parked => None
  | AtCheck =>
      if quit_ s && is_empty (tasks_ s)
      then Some (emit [EvUnlock (worker i); EvExit i]
                   (set_lock None (set_worker i (goto Returned w) s)))
      else Some (set_worker i (goto AtFront w) s)
  | AtFront =>
      match tasks_ s with
      | [] => Some (set_worker i (goto Undefined w) s)
      | task :: q =>
          Some (emit [EvPop i task; EvUnlock (worker i)]
                  (set_lock None
                     (set_tasks q (set_worker i (goto (AtCall task) w) s))))
      end
  | AtCall task =>
      match invoke task (futures s) with
      | Some h =>
          Some (emit [EvInvoke i task]
                  (set_futures h (set_worker i (goto AtLoop w) s)))
      | None => Some (set_worker i (goto Aborted w) s)
      end
  | Returned | Aborted | Undefined => None
  end.
Proof. intros Hw. unfold worker_step. by rewrite Hw. Qed.

Lemma lookup_set_worker i w s w0 :
  pool_ s !! i = Some w0 → pool_ (set_worker i w s) !! i = Some w.
Proof.
  intros Hw. simpl. apply list_lookup_insert_eq. by eapply lookup_lt_Some.
Qed.

Lemma run_cons l tr s s1 :
  step l s = Some s1 → run (l :: tr) s = run tr s1.
Proof. intros Hs. simpl. by rewrite Hs. Qed.

Lemma worker_at_loop i s w :
  pool_ s !! i = Some w → wpc w = AtLoop → quit_local w = false →
  worker_step i s = Some (set_worker i (goto AtLock w) s).
Proof. intros Hw Hpc Hq. by rewrite (worker_step_at i s w Hw), Hpc, Hq. Qed.

Lemma worker_at_lock i s w :
  pool_ s !! i = Some w → wpc w = AtLock → oper_lock_ s = None →
  worker_step i s =
  Some (emit [EvLock (worker i)]
          (set_lock (Some i) (set_worker i (goto AtPred w) s))).
Proof. intros Hw Hpc Hl. by rewrite (worker_step_at i s w Hw), Hpc, Hl. Qed.

Lemma worker_at_pred i s w t q :
  pool_ s !! i = Some w → wpc w = AtPred → tasks_ s = t :: q →
  worker_step i s = Some (set_worker i (goto AtCheck w) s).
Proof.
  intros Hw Hpc Hq. rewrite (worker_step_at i s w Hw), Hpc, Hq. simpl.
  by rewrite orb_true_r.
Qed.

Lemma worker_at_check i s w t q :
  pool_ s !! i = Some w → wpc w = AtCheck → tasks_ s = t :: q →
  worker_step i s = Some (set_worker i (goto AtFront w) s).
Proof.
  intros Hw Hpc Hq. rewrite (worker_step_at i s w Hw), Hpc, Hq. simpl.
  by rewrite andb_false_r.
Qed.

Lemma worker_at_front i s w t q :
  pool_ s !! i = Some w → wpc w = AtFront → tasks_ s = t :: q →
  worker_step i s =
  Some (emit [EvPop i t; EvUnlock (worker i)]
          (set_lock None (set_tasks q (set_worker i (goto (AtCall t) w) s)))).
Proof. intros Hw Hpc Hq. by rewrite (worker_step_at i s w Hw), Hpc, Hq. Qed.

(** From the loop head with the local flag clear, a free mutex and a task
    at the head of the queue, five steps of a worker bring it to the call of
    that task. *)
Lemma worker_takes_next i s w t q :
  pool_ s !! i = Some w → wpc w = AtLoop → quit_local w = false →
  oper_lock_ s = None → tasks_ s = t :: q →
  ∃ s', run (replicate 5 (LWorker i)) s = Some s' ∧
        pool_ s' !! i = Some (goto (AtCall t) w) ∧
        tasks_ s' = q ∧ futures s' = futures s ∧ oper_lock_ s' = None.
Proof.
  intros Hw Hpc Hq Hlock Htasks.
  pose (s1 := set_worker i (goto AtLock w) s).
  pose (s2 := emit [EvLock (worker i)]
                (set_lock (Some i) (set_worker i (goto AtPred w) s1))).
  pose (s3 := set_worker i (goto AtCheck w) s2).
  pose (s4 := set_worker i (goto AtFront w) s3).
  pose (s5 := emit [EvPop i t; EvUnlock (worker i)]
                (set_lock None
                   (set_tasks q (set_worker i (goto (AtCall t) w) s4)))).
  assert (H1 : pool_ s1 !! i = Some (goto AtLock w))
    by (by eapply lookup_set_worker).
  assert (H2 : pool_ s2 !! i = Some (goto AtPred w))
    by (by eapply (lookup_set_worker i _ s1)).
  assert (H3 : pool_ s3 !! i = Some (goto AtCheck w))
    by (by eapply lookup_set_worker).
  assert (H4 : pool_ s4 !! i = Some (goto AtFront w))
    by (by eapply lookup_set_worker).
  assert (H5 : pool_ s5 !! i = Some (goto (AtCall t) w))
    by (by eapply (lookup_set_worker i _ s4)).
  exists s5. split; [|done].
  change (replicate 5 (LWorker i))
    with (LWorker i :: LWorker i :: LWorker i :: LWorker i :: [LWorker i]).
  rewrite (run_cons _ _ s s1) by (by apply worker_at_loop).
  rewrite (run_cons _ _ s1 s2) by (by apply (worker_at_lock i s1 _ H1)).
  rewrite (run_cons _ _ s2 s3) by (by apply (worker_at_pred i s2 _ t q H2)).
  rewrite (run_cons _ _ s3 s4) by (by apply (worker_at_check i s3 _ t q H3)).
  rewrite (run_cons _ _ s4 s5) by (by apply (worker_at_front i s4 _ t q H4)).
  done.
Qed.

(** ** The waiters of [enable_] *)

Lemma parked_from_lookup k l n i :
  parked_from k l !! n = Some i →
  k ≤ i ∧ ∃ w, l !! (i - k) = Some w ∧ wpc w = Parked.
Proof.
  revert k n. induction l as [|w l IH]; intros k n Hn; simpl in Hn; [done|].
  assert (Hrec : ∀ m, parked_from (S k) l !! m = Some i →
            k ≤ i ∧ ∃ w0, (w :: l) !! (i - k) = Some w0 ∧ wpc w0 = Parked).
  { intros m Hm. destruct (IH _ _ Hm) as (Hle & w0 & Hw0 & Hp).
    split; [lia|]. exists w0. split; [|done].
    replace (i - k) with (S (i - S k)) by lia. done. }
  unfold is_parked in Hn. destruct (wpc w) eqn:Hpc; simpl in Hn; eauto.
  destruct n as [|n]; simpl in Hn; eauto. simplify_eq.
  split; [lia|]. exists w. by rewrite Nat.sub_diag.
Qed.

Lemma parked_from_nil k l :
  parked_from k l = [] → ∀ j w, l !! j = Some w → wpc w ≠ Parked.
Proof.
  revert k. induction l as [|w0 l IH]; intros k Hnil j w Hj; [done|].
  simpl in Hnil. apply app_eq_nil in Hnil as [Hw0 Hl].
  destruct j as [|j]; simpl in Hj.
  - simplify_eq. unfold is_parked in Hw0. by destruct (wpc w).
  - by eapply IH.
Qed.

Lemma parked_lookup s n i :
  parked s !! n = Some i → ∃ w, pool_ s !! i = Some w ∧ wpc w = Parked.
Proof.
  intros Hn. apply parked_from_lookup in Hn as (_ & w & Hw & Hp).
  rewrite Nat.sub_0_r in Hw. eauto.
Qed.

Lemma alter_wake_parked (l : list Worker) i w :
  l !! i = Some w → wpc w = Parked → alter wake i l = <[i:=goto Woken w]> l.
Proof.
  intros Hw Hp. apply list_eq. intros j. destruct (decide (i = j)) as [->|].
  - rewrite list_lookup_alter_eq, Hw.
    rewrite list_lookup_insert_eq by (by eapply lookup_lt_Some).
    simpl. unfold wake, is_parked. by rewrite Hp.
  - by rewrite list_lookup_alter_ne, list_lookup_insert_ne.
Qed.

(** What [notify_one] does: it unblocks exactly one waiter when there is
    one, whatever the choice, and nothing when there is none. *)
Lemma notify_one_spec pick s :
  (∃ i w, pool_ s !! i = Some w ∧ wpc w = Parked ∧
     notify_one pick s =
     emit [EvNotifyOne (Some i)] (set_worker i (goto Woken w) s)) ∨
  ((∀ j w, pool_ s !! j = Some w → wpc w ≠ Parked) ∧
     notify_one pick s = emit [EvNotifyOne None] s).
Proof.
  unfold notify_one.
  destruct (parked s !! (pick `mod` length (parked s))) as [i|] eqn:Hp.
  - left. destruct (parked_lookup _ _ _ Hp) as (w & Hw & Hpc).
    exists i, w. split; [done|]. split; [done|].
    unfold set_worker, set_pool. simpl. by rewrite (alter_wake_parked _ _ w).
  - right. split; [|done]. apply (parked_from_nil 0).
    destruct (parked_from 0 (pool_ s)) as [|x l] eqn:Hl; [done|].
    apply lookup_ge_None in Hp. unfold parked in Hp. rewrite Hl in Hp.
    pose proof (Nat.mod_upper_bound pick (length (x :: l))) as Hb.
    simpl in *. lia.
Qed.

Lemma idle_pool_reachable : reachable idle_pool.
Proof. exists 1%Z, 0%Z, 0%Z, idle_trace. vm_compute. reflexivity. Qed.

Lemma forced_pool_reachable : reachable forced_pool.
Proof. exists 1%Z, 0%Z, 0%Z, forced_trace. vm_compute. reflexivity. Qed.

(** C3: a call of [commit] made once [quit_] is set throws the
    [runtime_error] of line 80 at once and leaves the whole pool state as it
    was: nothing is enqueued, no thread and no flag changes. *)
Theorem commit_after_shutdown_throws f pick s :
  quit_ s = true →
  commit f pick s = Throws (runtime_error "thread pool is alreay shutdown.") s ∧
  (alive s = true → step (LCommit f) s = Some s).
Proof.
  intros Hq. unfold commit, step, commit_begin. rewrite Hq. split; [done|].
  by intros ->.
Qed.

Lemma commit_after_shutdown_throws_witness :
  commit (Value 1) 0 (shutdown false idle_pool) =
    Throws (runtime_error "thread pool is alreay shutdown.")
           (shutdown false idle_pool) ∧
  (alive (shutdown false idle_pool) = true →
   step (LCommit (Value 1)) (shutdown false idle_pool) =
     Some (shutdown false idle_pool)).
Proof.
  apply (commit_after_shutdown_throws (Value 1) 0 (shutdown false idle_pool)).
  reflexivity.
Defined.

(** C4 (the code departs from the claim): [shutdown] stores the two flags
    and nothing else; it notifies nobody, so every thread is left as it was
    and a worker blocked in [wait] stays blocked. *)
Theorem shutdown_wakes_nobody force s :
  quit_ (shutdown force s) = true ∧
  force_ (shutdown force s) = force ∧
  pool_ (shutdown force s) = pool_ s ∧
  log (shutdown force s) = log s ++ [EvStoreQuit; EvStoreForce force] ∧
  (∀ i w, pool_ s !! i = Some w → wpc w = Parked →
          worker_step i (shutdown force s) = None).
Proof.
  repeat split; try done.
  - unfold shutdown, shutdown_force, shutdown_quit. simpl.
    by rewrite <-(assoc (++)).
  - intros i w Hw Hpc.
    rewrite (worker_step_at i (shutdown force s) w) by done. by rewrite Hpc.
Qed.

(** C4, at the failing input: after [shutdown(false)] the only worker of
    [idle_pool] is still blocked in [wait], while the first two steps of the
    destructor do unblock it. *)
Lemma shutdown_leaves_worker_blocked :
  wpc <$> pool_ (shutdown false idle_pool) !! 0 = Some Parked ∧
  worker_step 0 (shutdown false idle_pool) = None ∧
  (EvNotifyAll ∉ log (shutdown false idle_pool)) ∧
  (pool_ <$> run [LDestroy; LDestroy] idle_pool) = Some [mkWorker Woken false true].
Proof.
  split; [reflexivity|]. split; [reflexivity|]. split; [|reflexivity].
  vm_compute. intros H. repeat (inversion H as [|? ? ? H']; clear H; rename H' into H).
Qed.

(** C10: two calls of [shutdown] in a row leave the flags as the second
    call alone does: [quit_] is set, [force_] is the second argument. *)
Theorem shutdown_last_call_wins a b s :
  quit_ (shutdown b (shutdown a s)) = quit_ (shutdown b s) ∧
  force_ (shutdown b (shutdown a s)) = force_ (shutdown b s) ∧
  quit_ (shutdown b (shutdown a s)) = true ∧
  force_ (shutdown b (shutdown a s)) = b ∧
  force_ (shutdown false (shutdown true s)) = false.
Proof. done. Qed.

(** C2 (the code departs from the claim): in [forced_trace] the task with
    shared state 1 is still in the queue when [shutdown(true)] completes, and
    the worker removes it from the queue and calls it afterwards. *)
Theorem forced_shutdown_still_runs_queued_task :
  run forced_trace (ThreadPool_ctor 1 0 0) = Some forced_pool ∧
  ∃ before after,
    log forced_pool = before ++ (EvStoreForce true :: after) ∧
    EvEmplace (mkTask 1 (Value 2)) ∈ before ∧
    (EvPop 0 (mkTask 1 (Value 2)) ∉ before) ∧
    after = [EvInvoke 0 (mkTask 0 (Value 1)); EvLock (worker 0);
             EvPop 0 (mkTask 1 (Value 2)); EvUnlock (worker 0);
             EvInvoke 0 (mkTask 1 (Value 2))] ∧
    futures forced_pool !! 1 = Some (Some (Value 2)).
Proof.
  split; [vm_compute; reflexivity|].
  eexists (take 12 (log forced_pool)), _. vm_compute.
  split; [reflexivity|]. split.
  - do 5 apply list_elem_of_further. apply list_elem_of_here.
  - split; [|done]. intros H.
    repeat (inversion H as [|? ? ? H']; clear H; rename H' into H).
Qed.

(** C5, as the claim words it, fails: on [idle_pool] the events of a
    successful [commit] are not in the order lock, append, unlock, notify. *)
Lemma commit_order_counterexample :
  ¬ unlocks_before_notifying (Value 1) 0 idle_pool.
Proof.
  intros (s' & t & o & Hc & Hlog). vm_compute in Hc.
  injection Hc as _ <-. vm_compute in Hlog. discriminate Hlog.
Qed.

(** C5 (amended): a [commit] that finds [quit_] clear and the mutex free
    locks it, appends the task at the back of the queue, notifies one waiter
    while it still holds the mutex, unlocks, and returns the future of the
    task, which is not yet set.  The notification unblocks exactly one of the
    workers blocked in [wait] when there is one, and changes no thread when
    there is none. *)
Theorem commit_notifies_one_under_lock f pick s :
  quit_ s = false → oper_lock_ s = None →
  ∃ s' o,
    let t := mkTask (length (futures s)) f in
    commit f pick s = Returns (tid t) s' ∧
    log s' = log s ++ [EvLock client; EvEmplace t; EvNotifyOne o;
                       EvUnlock client] ∧
    tasks_ s' = tasks_ s ++ [t] ∧
    oper_lock_ s' = None ∧
    futures s' !! tid t = Some None ∧
    match o with
    | Some i => ∃ w, pool_ s !! i = Some w ∧ wpc w = Parked ∧
                     pool_ s' = <[i:=goto Woken w]> (pool_ s)
    | None => (∀ j w, pool_ s !! j = Some w → wpc w ≠ Parked) ∧
              pool_ s' = pool_ s
    end.
Proof.
  intros Hq Hl. unfold commit, commit_begin, commit_end. rewrite Hq. simpl.
  rewrite Hl.
  match goal with |- context [notify_one pick ?s0] =>
    destruct (notify_one_spec pick s0) as [(i & w & Hw & Hp & ->)|[Hn ->]] end.
  - simpl in Hw. eexists _, (Some i). split; [done|]. simpl.
    rewrite <-!(assoc (++)). split; [done|]. split; [done|]. split; [done|].
    split; [by rewrite lookup_app_r, Nat.sub_diag|]. eauto.
  - simpl in Hn. eexists _, None. split; [done|]. simpl.
    rewrite <-!(assoc (++)). split; [done|]. split; [done|]. split; [done|].
    split; [by rewrite lookup_app_r, Nat.sub_diag|]. eauto.
Qed.

Lemma commit_notifies_one_under_lock_witness :
  ∃ s' o,
    let t := mkTask (length (futures idle_pool)) (Value 1) in
    commit (Value 1) 0 idle_pool = Returns (tid t) s' ∧
    log s' = log idle_pool ++ [EvLock client; EvEmplace t; EvNotifyOne o;
                               EvUnlock client] ∧
    tasks_ s' = tasks_ idle_pool ++ [t] ∧
    oper_lock_ s' = None ∧
    futures s' !! tid t = Some None ∧
    match o with
    | Some i => ∃ w, pool_ idle_pool !! i = Some w ∧ wpc w = Parked ∧
                     pool_ s' = <[i:=goto Woken w]> (pool_ idle_pool)
    | None => (∀ j w, pool_ idle_pool !! j = Some w → wpc w ≠ Parked) ∧
              pool_ s' = pool_ idle_pool
    end.
Proof.
  apply (commit_notifies_one_under_lock (Value 1) 0 idle_pool); reflexivity.
Defined.

(** C6: the queue is first in, first out.  In every reachable state the
    tasks removed so far, in the order of their removal, followed by the
    queue, are the tasks in the order they were appended (once the pool is
    destroyed the queue is empty, and the closures destroyed with it stand
    in its place); [commit] appends at the back, and the dequeue of a worker
    removes exactly the head. *)
Theorem queue_is_fifo s :
  reachable s →
  popped s ++ abandoned s ++ tasks_ s = emplaced s ∧
  (destroyed s = false → popped s ++ tasks_ s = emplaced s) ∧
  (∀ task pick s', commit_end task pick s = Some s' →
     tasks_ s' = tasks_ s ++ [task] ∧ emplaced s' = emplaced s ++ [task]) ∧
  (∀ i w s', pool_ s !! i = Some w → wpc w = AtFront →
     worker_step i s = Some s' →
     ∃ task, tasks_ s = task :: tasks_ s' ∧ popped s' = popped s ++ [task] ∧
             wpc <$> pool_ s' !! i = Some (AtCall task)).
Proof.
  intros Hr. pose proof (reachable_inv s Hr) as HI. split; [apply HI|].
  split; [|split].
  - intros Hd. pose proof (inv_abandoned s HI) as Ha.
    unfold abandoned_inv in Ha. rewrite Hd in Ha.
    pose proof (inv_fifo s HI) as Hf. unfold fifo_inv in Hf.
    by rewrite Ha in Hf.
  - intros task pick s' Hc. unfold commit_end in Hc.
    destruct (oper_lock_ s); [done|]. injection Hc as <-.
    match goal with |- context [notify_one pick ?s0] =>
      destruct (notify_one_shape pick s0) as (pool' & o & -> & _) end.
    split; [done|]. unfold emplaced. simpl. rewrite !omap_app. simpl.
    by rewrite !app_nil_r.
  - intros i w s' Hw Hpc Hs.
    pose proof (inv_queue s HI i w Hw) as Hq. rewrite Hpc in Hq. simpl in Hq.
    destruct (tasks_ s) as [|task q] eqn:Htasks; [done|].
    rewrite (worker_at_front i s w task q Hw Hpc Htasks) in Hs.
    injection Hs as <-. exists task. split; [done|]. split.
    + unfold popped. simpl. rewrite omap_app. done.
    + simpl. by rewrite list_lookup_insert_eq by (by eapply lookup_lt_Some).
Qed.

Lemma queue_is_fifo_witness :
  popped forced_pool ++ abandoned forced_pool ++ tasks_ forced_pool =
    emplaced forced_pool ∧
  (destroyed forced_pool = false →
   popped forced_pool ++ tasks_ forced_pool = emplaced forced_pool) ∧
  (∀ task pick s', commit_end task pick forced_pool = Some s' →
     tasks_ s' = tasks_ forced_pool ++ [task] ∧
     emplaced s' = emplaced forced_pool ++ [task]) ∧
  (∀ i w s', pool_ forced_pool !! i = Some w → wpc w = AtFront →
     worker_step i forced_pool = Some s' →
     ∃ task, tasks_ forced_pool = task :: tasks_ s' ∧
             popped s' = popped forced_pool ++ [task] ∧
             wpc <$> pool_ s' !! i = Some (AtCall task)).
Proof.
  apply (queue_is_fifo forced_pool).
  exists 1%Z, 0%Z, 0%Z, forced_trace. vm_compute. reflexivity.
Defined.

Lemma failing_pool_reachable : reachable failing_pool.
Proof. exists 1%Z, 0%Z, 0%Z, failing_trace. vm_compute. reflexivity. Qed.

(** C7: when the task a worker calls throws, the exception is stored in the
    shared state of that task and the worker is back at the head of its loop
    with its local flag clear: no worker is ever in the aborted state, and
    with the mutex free and a task queued, five more steps bring the same
    worker to the call of that next task. *)
Theorem failing_task_is_captured s i w t what :
  reachable s → pool_ s !! i = Some w → wpc w = AtCall t →
  work t = Failure what →
  ∃ s',
    worker_step i s = Some s' ∧
    futures s' !! tid t = Some (Some (Failure what)) ∧
    pool_ s' !! i = Some (mkWorker AtLoop false (joinable w)) ∧
    (∀ j wj, pool_ s' !! j = Some wj → wpc wj ≠ Aborted) ∧
    (∀ next q, tasks_ s' = next :: q → oper_lock_ s' = None →
       ∃ s'', run (replicate 5 (LWorker i)) s' = Some s'' ∧
              wpc <$> pool_ s'' !! i = Some (AtCall next) ∧
              futures s'' !! tid t = Some (Some (Failure what))).
Proof.
  intros Hr Hw Hpc Hwork. pose proof (reachable_inv s Hr) as HI.
  assert (Hpend : futures s !! tid t = Some None).
  { apply (acc_pending s (inv_account s HI)), elem_of_app. left.
    by eapply executing_lookup. }
  destruct (inv_local s HI i w Hw) as (_ & Hbody & _).
  rewrite Hpc in Hbody. specialize (Hbody eq_refl).
  assert (Hs : worker_step i s =
    Some (emit [EvInvoke i t]
            (set_futures (<[tid t:=Some (work t)]> (futures s))
               (set_worker i (goto AtLoop w) s)))).
  { rewrite (worker_step_at i s w Hw), Hpc. unfold invoke. by rewrite Hpend. }
  eexists. split; [exact Hs|].
  assert (Hi : pool_ (emit [EvInvoke i t]
            (set_futures (<[tid t:=Some (work t)]> (futures s))
               (set_worker i (goto AtLoop w) s))) !! i =
          Some (mkWorker AtLoop false (joinable w))).
  { simpl. rewrite list_lookup_insert_eq by (by eapply lookup_lt_Some).
    unfold goto. by rewrite Hbody. }
  assert (Hf : futures (emit [EvInvoke i t]
            (set_futures (<[tid t:=Some (work t)]> (futures s))
               (set_worker i (goto AtLoop w) s))) !! tid t =
          Some (Some (Failure what))).
  { simpl. rewrite list_lookup_insert_eq by (by eapply lookup_lt_Some).
    by rewrite Hwork. }
  split; [done|]. split; [done|]. split.
  - apply (inv_alive _ (pool_inv_step (LWorker i) s _ HI Hs)).
  - intros next q Hq Hl.
    destruct (worker_takes_next i _ _ next q Hi eq_refl eq_refl Hl Hq)
      as (s'' & Hrun & Hi'' & _ & Hf'' & _).
    exists s''. split; [done|]. split; [by rewrite Hi''|]. by rewrite Hf''.
Qed.

Lemma failing_task_is_captured_witness :
  ∃ s',
    worker_step 0 failing_pool = Some s' ∧
    futures s' !! 0 = Some (Some (Failure "boom")) ∧
    pool_ s' !! 0 = Some (mkWorker AtLoop false true) ∧
    (∀ j wj, pool_ s' !! j = Some wj → wpc wj ≠ Aborted) ∧
    (∀ next q, tasks_ s' = next :: q → oper_lock_ s' = None →
       ∃ s'', run (replicate 5 (LWorker 0)) s' = Some s'' ∧
              wpc <$> pool_ s'' !! 0 = Some (AtCall next) ∧
              futures s'' !! 0 = Some (Some (Failure "boom"))).
Proof.
  apply (failing_task_is_captured failing_pool 0
           (mkWorker (AtCall (mkTask 0 (Failure "boom"))) false true)
           (mkTask 0 (Failure "boom")) "boom").
  - exists 1%Z, 0%Z, 0%Z, failing_trace. vm_compute. reflexivity.
  - reflexivity.
  - reflexivity.
  - reflexivity.
Defined.

(** C8, as the claim words it, fails: the destructor of [late_forced_pool]
    leaves the mode forced; the thread, which then reads [force_] at its
    entry, returns at once, and the queued task is destroyed without having
    been called. *)
Lemma destructor_keeps_forced_mode :
  reachable late_forced_pool ∧
  ¬ requests_graceful_shutdown late_forced_pool ∧
  ∃ s, run forced_teardown_trace late_forced_pool = Some s ∧
       dtor s = Some DDone ∧ force_ s = true ∧
       invoked s = [] ∧ abandoned s = [mkTask 0 (Value 1)] ∧
       futures s = [Some broken_promise].
Proof.
  split; [|split].
  - exists 1%Z, 0%Z, 0%Z, late_forced_trace. vm_compute. reflexivity.
  - intros (s' & Hs & _ & Hf). vm_compute in Hs. injection Hs as <-.
    vm_compute in Hf. discriminate Hf.
  - eexists. split; [vm_compute; reflexivity|]. vm_compute. done.
Qed.

(** C8 (amended): the destructor first sets [quit_] and leaves [force_] as
    it is, in this step and in all its later ones; then it notifies all
    waiters, then joins the threads of [pool_] one after the other; a join
    does not proceed while its thread has not returned, and when the
    destructor is done every worker has returned and has been joined. *)
Theorem destructor_joins_all_workers s :
  reachable s →
  (dtor s = None →
     ∃ s', dtor_step s = Some s' ∧ quit_ s' = true ∧ force_ s' = force_ s ∧
           pool_ s' = pool_ s ∧ dtor s' = Some DNotify) ∧
  (∀ s', dtor_step s = Some s' → force_ s' = force_ s) ∧
  (dtor s = Some DNotify →
     ∃ s', dtor_step s = Some s' ∧ pool_ s' = wake <$> pool_ s ∧
           log s' = log s ++ [EvNotifyAll] ∧ dtor s' = Some (DJoin 0)) ∧
  (∀ k w, dtor s = Some (DJoin k) → pool_ s !! k = Some w →
     wpc w ≠ Returned → dtor_step s = None) ∧
  (dtor s = Some DDone →
     ∀ j w, pool_ s !! j = Some w → wpc w = Returned ∧ joinable w = false).
Proof.
  intros Hr. pose proof (reachable_inv s Hr) as HI.
  split; [|split; [|split; [|split]]].
  - intros Hd. unfold dtor_step. rewrite Hd. eexists. by split.
  - intros s' Hs. unfold dtor_step in Hs.
    destruct (dtor s) as [[|k|]|]; simplify_eq/=; try done.
    destruct (pool_ s !! k) as [t|]; simplify_eq/=; [|done].
    destruct (joinable t); simplify_eq/=; [|done].
    destruct (wpc t); by simplify_eq/=.
  - intros Hd. unfold dtor_step. rewrite Hd. eexists. by split.
  - intros k w Hd Hw Hpc. unfold dtor_step. rewrite Hd, Hw.
    destruct (joinable w) eqn:Hj; [by destruct (wpc w)|].
    destruct (inv_dtor s HI k w Hw) as [_ Hjoin]. by specialize (Hjoin Hj).
  - intros Hd j w Hw. destruct (inv_dtor s HI j w Hw) as [Hjoin _].
    by rewrite Hd in Hjoin.
Qed.

Lemma destructor_joins_all_workers_witness :
  dtor destroyed_pool = Some DDone ∧
  ∀ j w, pool_ destroyed_pool !! j = Some w →
         wpc w = Returned ∧ joinable w = false.
Proof.
  split; [reflexivity|].
  apply (destructor_joins_all_workers destroyed_pool); [|reflexivity].
  exists 2%Z, 0%Z, 0%Z, destroyed_trace. vm_compute. reflexivity.
Defined.












Lemma step_quit_mono l s s' :
  step l s = Some s' → quit_ s = true → quit_ s' = true.
Proof.
  intros Hs Hq. destruct (is_worker_label l) eqn:Hwl.
  - apply worker_label_inv in Hwl as [i ->].
    change (worker_step i s = Some s') in Hs. worker_cases Hs w Hw; done.
  - by destruct (step_env_frame _ _ _ Hs Hwl) as (_ & H & _); apply H.
Qed.
























Lemma run_quit_mono tr s s' :
  run tr s = Some s' → quit_ s = true → quit_ s' = true.
Proof.
  revert s. induction tr as [|l tr IH]; intros s Hr Hq; simpl in Hr.
  - by simplify_eq.
  - destruct (step l s) as [s1|] eqn:Hs; simpl in Hr; [|done].
    apply (IH s1 Hr). by eapply step_quit_mono.
Qed.

(** Once [quit_] is set no task is accepted any more: the tasks appended to
    the queue or about to be are, as a multiset, those of before. *)
Lemma step_closed l s s' :
  quit_ s = true → step l s = Some s' →
  emplaced s' ++ call_tasks s' ≡ₚ emplaced s ++ call_tasks s.
Proof.
  intros Hq Hs. destruct (is_worker_label l) eqn:Hwl.
  - apply worker_label_inv in Hwl as [i ->].
    change (worker_step i s = Some s') in Hs.
    worker_cases Hs w Hw; by log_simpl.
  - env_cases Hs; try (by log_simpl); try congruence.
    + log_simpl. rewrite <-(assoc (++)). simpl.
      match goal with H : calls s !! _ = Some _ |- _ =>
        by rewrite (call_tasks_delete _ _ _ H) end.
    + log_simpl. by rewrite bind_app, app_nil_r.
    + log_simpl.
      match goal with H : calls s !! _ = Some _ |- _ =>
        by rewrite (call_tasks_delete _ _ _ H) end.
Qed.








(** ** Further properties of the code *)

(** X4: the mutex is held by at most one worker, and only between the lock
    of line 51 and the end of the block at line 61 (in [wait], between the
    test of the predicate and the blocking): never during the call of a
    task, never by a worker that is blocked in [wait] or has returned; and
    the worker that holds it can always take its next step. *)
Theorem mutex_discipline s :
  reachable s →
  (∀ i j wi wj, pool_ s !! i = Some wi → pool_ s !! j = Some wj →
     holds_lock (wpc wi) = true → holds_lock (wpc wj) = true → i = j) ∧
  (∀ i w, pool_ s !! i = Some w → oper_lock_ s = Some i →
     wpc w = AtPred ∨ wpc w = AtWait ∨ wpc w = AtCheck ∨ wpc w = AtFront) ∧
  (∀ i, oper_lock_ s = Some i → ∃ s', worker_step i s = Some s').
Proof.
  intros Hr. pose proof (reachable_inv s Hr) as HI.
  pose proof (inv_lock s HI) as HL. split; [|split].
  - intros i j wi wj Hi Hj Hhi Hhj.
    pose proof (lock_inv_holder s i wi HL Hi Hhi).
    pose proof (lock_inv_holder s j wj HL Hj Hhj). congruence.
  - intros i w Hw Hl. apply (HL i) in Hl. rewrite Hw in Hl. simpl in Hl.
    pose proof (inv_queue s HI i w Hw) as Hq.
    destruct (wpc w); simpl in *; try done; auto.
  - intros i Hl. apply (HL i) in Hl.
    destruct (pool_ s !! i) as [w|] eqn:Hw; [|done]. simpl in Hl.
    pose proof (inv_queue s HI i w Hw) as Hq.
    rewrite (worker_step_at i s w Hw).
    destruct (wpc w); simpl in *; try done.
    + destruct (quit_ s || negb (is_empty (tasks_ s))); eauto.
    + eauto.
    + destruct (quit_ s && is_empty (tasks_ s)); eauto.
    + destruct (tasks_ s); eauto.
Qed.

Lemma mutex_discipline_witness :
  ∃ s', worker_step 0 dequeue_pool = Some s'.
Proof.
  assert (Hr : reachable dequeue_pool).
  { exists 1%Z, 0%Z, 0%Z, dequeue_trace. vm_compute. reflexivity. }
  destruct (mutex_discipline dequeue_pool Hr) as (_ & _ & H).
  exact (H 0 eq_refl).
Defined.

(** X6: past its first line (line 47) a worker never reads [force_]: the
    step it takes, and the state it leaves, are the same whatever the flag
    holds. *)
Theorem force_is_read_only_at_entry i s w b :
  pool_ s !! i = Some w → wpc w ≠ AtEntry →
  worker_step i (set_force b s) = set_force b <$> worker_step i s.
Proof.
  intros Hw Hpc.
  rewrite (worker_step_at i (set_force b s) w Hw), (worker_step_at i s w Hw).
  destruct (wpc w); try done; simpl;
    repeat match goal with
      | |- context [if ?c then _ else _] => destruct c
      | |- context [match ?x with _ => _ end] => destruct x
      end; done.
Qed.

Lemma force_is_read_only_at_entry_witness :
  worker_step 0 (set_force true dequeue_pool) =
  set_force true <$> worker_step 0 dequeue_pool.
Proof.
  apply (force_is_read_only_at_entry 0 dequeue_pool
           (mkWorker AtFront false true) true); [reflexivity|discriminate].
Defined.

(** X5: a worker that runs its first line when [quit_] and [force_] are
    both set leaves its loop at once: three steps take it to its return, and
    it touches neither the queue, nor the mutex, nor any shared state, so the
    tasks in the queue are not called by it. *)
Theorem forced_worker_returns_at_once i s w :
  pool_ s !! i = Some w → wpc w = AtEntry →
  quit_ s = true → force_ s = true →
  ∃ s', run (replicate 3 (LWorker i)) s = Some s' ∧
        wpc <$> pool_ s' !! i = Some Returned ∧
        tasks_ s' = tasks_ s ∧ futures s' = futures s ∧
        oper_lock_ s' = oper_lock_ s ∧ log s' = log s ++ [EvExit i].
Proof.
  intros Hw Hpc Hq Hf.
  pose (s1 := set_worker i (goto AtEntryQuit w) s).
  pose (s2 := set_worker i (mkWorker AtLoop true (joinable w)) s1).
  pose (s3 := emit [EvExit i]
                (set_worker i (mkWorker Returned true (joinable w)) s2)).
  assert (H1 : pool_ s1 !! i = Some (goto AtEntryQuit w))
    by (by eapply lookup_set_worker).
  assert (H2 : pool_ s2 !! i = Some (mkWorker AtLoop true (joinable w)))
    by (by eapply lookup_set_worker).
  assert (H3 : pool_ s3 !! i = Some (mkWorker Returned true (joinable w)))
    by (by eapply (lookup_set_worker i _ s2)).
  exists s3. split; [|by rewrite H3].
  change (replicate 3 (LWorker i)) with (LWorker i :: LWorker i :: [LWorker i]).
  rewrite (run_cons _ _ s s1)
    by (simpl; by rewrite (worker_step_at i s w Hw), Hpc, Hf).
  rewrite (run_cons _ _ s1 s2)
    by (simpl; rewrite (worker_step_at i s1 _ H1); simpl; by rewrite Hq).
  rewrite (run_cons _ _ s2 s3)
    by (simpl; by rewrite (worker_step_at i s2 _ H2)).
  done.
Qed.

Lemma forced_worker_returns_at_once_witness :
  ∃ s', run (replicate 3 (LWorker 0)) late_forced_pool = Some s' ∧
        wpc <$> pool_ s' !! 0 = Some Returned ∧
        tasks_ s' = tasks_ late_forced_pool ∧
        futures s' = futures late_forced_pool ∧
        oper_lock_ s' = oper_lock_ late_forced_pool ∧
        log s' = log late_forced_pool ++ [EvExit 0].
Proof.
  apply (forced_worker_returns_at_once 0 late_forced_pool fresh_thread);
    reflexivity.
Defined.

(** X3: [quit_] is never cleared.  From a state in which it is set, along
    any run, it stays set, every call of [commit] throws, and the only tasks
    that can still reach the queue are those of the calls of [commit] that
    had passed the test of line 78 before: the tasks in the queue's history
    together with those of the calls in progress stay the same. *)
Theorem shutdown_is_irreversible tr s s' :
  quit_ s = true → run tr s = Some s' →
  quit_ s' = true ∧
  (∀ f pick, commit f pick s' =
     Throws (runtime_error "thread pool is alreay shutdown.") s') ∧
  emplaced s' ++ call_tasks s' ≡ₚ emplaced s ++ call_tasks s.
Proof.
  intros Hq Hr.
  assert (Hq' : quit_ s' = true) by (by eapply run_quit_mono).
  split; [done|]. split.
  - intros f pick. unfold commit, commit_begin. by rewrite Hq'.
  - revert s Hq Hr. induction tr as [|l tr IH]; intros s Hq Hr; simpl in Hr.
    + by simplify_eq.
    + destruct (step l s) as [s1|] eqn:Hs; simpl in Hr; [|done].
      rewrite (IH s1); [by eapply step_closed|by eapply step_quit_mono|done].
Qed.

Lemma shutdown_is_irreversible_witness :
  quit_ graceful_end = true ∧
  (∀ f pick, commit f pick graceful_end =
     Throws (runtime_error "thread pool is alreay shutdown.") graceful_end) ∧
  emplaced graceful_end ++ call_tasks graceful_end ≡ₚ
    emplaced graceful_s1 ++ call_tasks graceful_s1.
Proof.
  apply (shutdown_is_irreversible graceful_post graceful_s1 graceful_end).
  - reflexivity.
  - vm_compute. reflexivity.
Defined.

Lemma result_inv_preserved s s' :
  account_inv s → result_inv s → account_step s s' → result_inv s'.
Proof.
  intros HA HR Hstep a o Ha.
  destruct Hstep as [He Hi Hb Hx Hq Hc Hf|t Ht Hf Hc He Hi Hb Hx Hq
                    |t Hc Hq He Hi Hb Hx Hf|t Hq Hx He Hi Hb Hc Hf
                    |t Hx Hi Hft Hf He Hq Hb Hc|t Ht Hft
                    |Hq Hb Hf He Hi Hx Hc].
  - rewrite Hi, Hb. apply HR. by rewrite <-Hf.
  - rewrite Hi, Hb. apply HR. rewrite Hf in Ha.
    apply lookup_app_Some in Ha as [Ha|[_ Ha]]; [done|].
    by destruct (a - length (futures s)).
  - rewrite Hi, Hb. apply HR. by rewrite <-Hf.
  - rewrite Hi, Hb. apply HR. by rewrite <-Hf.
  - rewrite Hi, Hb, Hf in *. destruct (decide (tid t = a)) as [<-|Hne].
    + rewrite list_lookup_insert_eq in Ha by (by eapply lookup_lt_Some).
      simplify_eq. exists t. split; [done|]. left. split; [|done].
      apply elem_of_app. right. by apply list_elem_of_singleton.
    + rewrite list_lookup_insert_ne in Ha by done.
      destruct (HR a o Ha) as (t' & Htid & [[Hin Hw]|[Hin Hw]]);
        exists t'; (split; [done|]); [left|right]; (split; [|done]);
        [apply elem_of_app; by left|done].
  - exfalso. apply Hft, (acc_pending s HA), elem_of_app. by left.
  - rewrite Hi, Hb. rewrite Hf, foldr_abandon_lookup in Ha.
    destruct (decide (a ∈ tid <$> tasks_ s)) as [Hin|Hnin].
    + apply list_elem_of_fmap in Hin as (t & -> & Hin).
      rewrite (acc_pending s HA t) in Ha
        by (rewrite !elem_of_app; tauto).
      simpl in Ha. simplify_eq. exists t. split; [done|]. right.
      split; [|done]. apply elem_of_app. by right.
    + destruct (HR a o Ha) as (t' & Htid & [[Hin Hw]|[Hin Hw]]);
        exists t'; (split; [done|]); [left|right]; (split; [|done]);
        [done|apply elem_of_app; by left].
Qed.

Lemma reachable_result s : reachable s → result_inv s.
Proof.
  induction 1 as [core max cache|l s s' Hr IH Hs] using reachable_ind.
  - intros a o Ha. done.
  - eapply result_inv_preserved;
      [apply (inv_account s (reachable_inv s Hr))|done|by eapply step_account].
Qed.

(** A step never changes a shared state that is set. *)
Lemma step_future_set l s s' a o :
  account_inv s → step l s = Some s' →
  futures s !! a = Some (Some o) → futures s' !! a = Some (Some o).
Proof.
  intros HA Hs Ha.
  destruct (step_account _ _ _ Hs)
    as [He Hi Hb Hx Hq Hc Hf|t Ht Hf Hc He Hi Hb Hx Hq
       |t Hc Hq He Hi Hb Hx Hf|t Hq Hx He Hi Hb Hc Hf
       |t Hx Hi Hft Hf He Hq Hb Hc|t Ht Hft
       |Hq Hb Hf He Hi Hx Hc]; rewrite ?Hf; try done.
  - by apply lookup_app_l_Some.
  - rewrite list_lookup_insert_ne; [done|]. intros <-. congruence.
  - exfalso. apply Hft, (acc_pending s HA), elem_of_app. by left.
  - rewrite foldr_abandon_lookup, Ha. simpl.
    by destruct (decide (a ∈ tid <$> tasks_ s)).
Qed.

(** X7: the shared state of a future is written once.  When it is set, the
    task that was committed with it has either been called, and it holds the
    outcome of that call, or been destroyed with the queue without having
    been called, and it holds [broken_promise]; no later step changes it. *)
Theorem future_is_written_once s a o :
  reachable s → futures s !! a = Some (Some o) →
  (∃ t, t ∈ emplaced s ∧ tid t = a ∧
        (t ∈ invoked s ∧ (t ∉ abandoned s) ∧ work t = o ∨
         t ∈ abandoned s ∧ (t ∉ invoked s) ∧ o = broken_promise)) ∧
  (∀ tr s', run tr s = Some s' → futures s' !! a = Some (Some o)).
Proof.
  intros Hr Ha. split.
  - pose proof (inv_account s (reachable_inv s Hr)) as HA.
    pose proof (account_all s HA) as Hnd. apply NoDup_fmap_1 in Hnd.
    assert (Hdisj : ∀ t, t ∈ invoked s → t ∈ abandoned s → False).
    { intros t Hi Hb. apply NoDup_app in Hnd as (_ & Hd & _).
      apply (Hd t Hi). rewrite !elem_of_app. tauto. }
    destruct (reachable_result s Hr a o Ha) as (t & Htid & Hcase).
    exists t. rewrite (acc_perm s HA), !elem_of_app.
    destruct Hcase as [[Hin Hw]|[Hin Hw]].
    + split; [tauto|]. split; [done|]. left. naive_solver.
    + split; [tauto|]. split; [done|]. right. naive_solver.
  - intros tr. revert s Hr Ha.
    induction tr as [|l tr IH]; intros s Hr Ha s' Hrun; simpl in Hrun.
    + by simplify_eq.
    + destruct (step l s) as [s1|] eqn:Hs; simpl in Hrun; [|done].
      apply (IH s1); [by eapply reachable_step| |done].
      eapply step_future_set; [|done..].
      apply (inv_account s (reachable_inv s Hr)).
Qed.

Lemma future_is_written_once_witness :
  (∃ t, t ∈ emplaced lost_destroyed ∧ tid t = 0 ∧
        (t ∈ invoked lost_destroyed ∧ (t ∉ abandoned lost_destroyed) ∧
           work t = broken_promise ∨
         t ∈ abandoned lost_destroyed ∧ (t ∉ invoked lost_destroyed) ∧
           broken_promise = broken_promise)) ∧
  (∀ tr s', run tr lost_destroyed = Some s' →
            futures s' !! 0 = Some (Some broken_promise)).
Proof.
  apply (future_is_written_once lost_destroyed 0 broken_promise);
    [|reflexivity].
  exists 1%Z, 0%Z, 0%Z,
    (lost_pre ++ [LShutdown false] ++ lost_post ++ replicate 4 LDestroy).
  vm_compute. reflexivity.
Defined.

(** X8: no two tasks share a future.  In every reachable state the tasks
    that were ever appended to the queue and those of the calls of [commit]
    in progress have distinct shared states, all allocated; and the future
    that a new call of [commit] returns is none of theirs. *)
Theorem futures_are_distinct s :
  reachable s →
  NoDup (tid <$> (emplaced s ++ call_tasks s)) ∧
  (∀ t, t ∈ emplaced s ++ call_tasks s → tid t < length (futures s)) ∧
  (∀ f pick a s', commit f pick s = Returns a s' →
     ∀ t, t ∈ emplaced s ++ call_tasks s → tid t ≠ a).
Proof.
  intros Hr. pose proof (inv_account s (reachable_inv s Hr)) as HA.
  split; [apply HA|]. split; [intros t; by apply account_bound|].
  intros f pick a s' Hc t Hin. apply (account_bound s t HA) in Hin.
  unfold commit, commit_begin in Hc. destruct (quit_ s); [done|].
  destruct (commit_end _ _ _); [|done]. simpl in Hc. simplify_eq. lia.
Qed.

Lemma futures_are_distinct_witness :
  NoDup (tid <$> (emplaced forced_pool ++ call_tasks forced_pool)).
Proof.
  apply (futures_are_distinct forced_pool).
  exists 1%Z, 0%Z, 0%Z, forced_trace. vm_compute. reflexivity.
Defined.



Lemma notify_one_reconfigure m c pick s :
  notify_one pick (reconfigure m c s) = reconfigure m c (notify_one pick s).
Proof.
  unfold notify_one. change (parked (reconfigure m c s)) with (parked s).
  by destruct (parked s !! _).
Qed.

Lemma step_reconfigure m c l s :
  step l (reconfigure m c s) = reconfigure m c <$> step l s.
Proof.
  destruct l; simpl.
  - change (alive (reconfigure m c s)) with (alive s). by destruct (alive s).
  - change (alive (reconfigure m c s)) with (alive s).
    unfold commit_begin. simpl. by destruct (alive s), (quit_ s).
  - change (destroyed (reconfigure m c s)) with (destroyed s).
    destruct (destroyed s); [done|].
    destruct (calls s !! k) as [[task|]|]; try done.
    unfold commit_end. simpl. destruct (oper_lock_ s); [done|]. simpl.
    f_equal.
    match goal with |- emit _ (notify_one _ ?x) = _ =>
      change x with (reconfigure m c
        (emit [EvEmplace task]
           (set_tasks (tasks_ s ++ [task])
              (emit [EvLock client] (set_calls (delete k (calls s)) s)))))
    end.
    by rewrite notify_one_reconfigure.
  - change (alive (reconfigure m c s)) with (alive s). by destruct (alive s).
  - change (destroyed (reconfigure m c s)) with (destroyed s).
    destruct (destroyed s); [done|].
    by destruct (calls s !! k) as [[task|]|].
  - unfold worker_step. simpl.
    destruct (pool_ s !! i) as [w|]; simpl; [|done].
    destruct (wpc w); try done;
      repeat match goal with
        | |- context [if ?c then _ else _] => destruct c
        | |- context [match ?x with _ => _ end] => destruct x
        end; done.
  - unfold spurious_wakeup. simpl.
    destruct (pool_ s !! i) as [w|]; simpl; [|done].
    by destruct (is_parked w).
  - unfold dtor_step. simpl. destruct (dtor s) as [[|k|]|]; try done.
    destruct (pool_ s !! k) as [t|]; [|done].
    destruct (joinable t); [|done]. by destruct (wpc t).
Qed.

(** X2: [max_] and [cache_] are inert.  Whatever values the constructor is
    given for them, every run of the pool does the same: the same steps are
    possible and they lead to the same state, but for the two fields
    themselves, which no step changes.  In particular there is no bound on
    the queue and no thread beyond the [core_] ones of each [start]. *)
Theorem max_and_cache_are_inert tr core max cache :
  run tr (ThreadPool_ctor core max cache) =
  reconfigure max cache <$> run tr (ThreadPool_ctor core 0 0).
Proof.
  change (ThreadPool_ctor core max cache)
    with (reconfigure max cache (ThreadPool_ctor core 0 0)).
  generalize (ThreadPool_ctor core 0 0). induction tr as [|l tr IH]; intros s.
  - done.
  - simpl. rewrite step_reconfigure.
    destruct (step l s) as [s1|]; simpl; [apply IH|done].
Qed.

(** ** A pool without threads *)

Lemma step_no_threads l s s' :
  (core_ s ≤ 0)%Z → pool_ s = [] → invoked s = [] → popped s = [] →
  step l s = Some s' →
  core_ s' = core_ s ∧ pool_ s' = [] ∧ invoked s' = [] ∧ popped s' = [].
Proof.
  intros Hc Hp Hi Ho Hs. destruct (is_worker_label l) eqn:Hwl.
  - apply worker_label_inv in Hwl as [i ->]. simpl in Hs.
    unfold worker_step in Hs. by rewrite Hp in Hs.
  - assert (Hpool : pool_ s' = []).
    { destruct (step_env_same _ _ _ Hs Hwl) as [HF|(_ & _ & _ & ->)].
      - rewrite Hp in HF. by apply Forall2_nil_inv_l in HF.
      - rewrite Hp. by replace (Z.to_nat (core_ s)) with 0 by lia. }
    split; [|split; [done|]].
    + env_cases Hs; done.
    + env_cases Hs; split; by log_simpl.
Qed.

(** X1: a pool built with a [core] that is zero or negative never has a
    thread: [start] pushes nothing, [commit] still accepts tasks, and along
    every run they all stay in the queue, in the order of their arrival; no
    task is ever removed or called.  No future is set as long as the pool
    exists; its destruction destroys the queued tasks, and the only value a
    future ever holds is the [broken_promise] that this leaves. *)
Theorem pool_without_core_runs_nothing core max cache tr s :
  (core ≤ 0)%Z → run tr (ThreadPool_ctor core max cache) = Some s →
  pool_ s = [] ∧ popped s = [] ∧ invoked s = [] ∧
  abandoned s ++ tasks_ s = emplaced s ∧
  (destroyed s = false →
     tasks_ s = emplaced s ∧ ∀ a o, futures s !! a ≠ Some (Some o)) ∧
  (∀ a o, futures s !! a = Some (Some o) →
     destroyed s = true ∧ o = broken_promise ∧
     ∃ t, t ∈ abandoned s ∧ tid t = a).
Proof.
  intros Hc Hrun.
  assert (Hr : reachable s) by (by exists core, max, cache, tr).
  assert (H : core_ s = core ∧ pool_ s = [] ∧ invoked s = [] ∧ popped s = []).
  { clear Hr. revert s Hrun. induction tr as [|l tr IH] using rev_ind;
      intros s Hrun.
    - simpl in Hrun. by simplify_eq.
    - rewrite run_snoc in Hrun.
      destruct (run tr (ThreadPool_ctor core max cache)) as [s1|] eqn:E;
        simpl in Hrun; [|done].
      destruct (IH s1 eq_refl) as (Hc1 & Hp1 & Hi1 & Ho1).
      destruct (step_no_threads l s1 s) as (? & ? & ? & ?); try done;
        [lia|]. split; [congruence|done]. }
  destruct H as (_ & Hp & Hi & Ho).
  pose proof (reachable_inv s Hr) as HI.
  pose proof (inv_fifo s HI) as Hfifo.
  unfold fifo_inv in Hfifo. rewrite Ho in Hfifo. simpl in Hfifo.
  pose proof (inv_abandoned s HI) as Hab. unfold abandoned_inv in Hab.
  assert (Hset : ∀ a o, futures s !! a = Some (Some o) →
            destroyed s = true ∧ o = broken_promise ∧
            ∃ t, t ∈ abandoned s ∧ tid t = a).
  { intros a o Ha.
    destruct (reachable_result s Hr a o Ha) as (t & Htid & [[Hin _]|[Hin ->]]).
    - rewrite Hi in Hin. by apply not_elem_of_nil in Hin.
    - split; [|by eauto]. destruct (destroyed s); [done|].
      rewrite Hab in Hin. by apply not_elem_of_nil in Hin. }
  split; [done|]. split; [done|]. split; [done|]. split; [done|].
  split; [|done]. intros Hd. rewrite Hd in Hab. rewrite Hab in Hfifo.
  split; [done|]. intros a o Ha. destruct (Hset a o Ha) as [Hd' _].
  congruence.
Qed.

Lemma pool_without_core_runs_nothing_witness :
  ∃ s, run (no_core_trace ++ replicate 3 LDestroy) (ThreadPool_ctor 0 0 0)
         = Some s ∧
       pool_ s = [] ∧ popped s = [] ∧ invoked s = [] ∧
       abandoned s ++ tasks_ s = emplaced s ∧
       length (abandoned s) = 2 ∧
       futures s = [Some broken_promise; Some broken_promise].
Proof.
  eexists. split; [vm_compute; reflexivity|].
  destruct (pool_without_core_runs_nothing 0 0 0
              (no_core_trace ++ replicate 3 LDestroy) _
              ltac:(done) ltac:(vm_compute; reflexivity))
    as (H1 & H2 & H3 & H4 & _).
  repeat split; done.
Defined.

(** ** Tearing the pool down *)

Lemma worker_step_dtor i s s' : worker_step i s = Some s' → dtor s' = dtor s.
Proof. intros Hs. worker_cases Hs w Hw; done. Qed.





(** ** The wake-up of the destructor can be lost *)

Lemma hung_step i l s s' :
  hung i s → may_wake i l = false → step l s = Some s' → hung i s'.
Proof.
  intros (Hq & (k & Hd & Hk) & w & Hw & Hpc & Hj) Hl Hs.
  split; [by eapply step_quit_mono|].
  destruct (is_worker_label l) eqn:Hwl.
  - apply worker_label_inv in Hwl as [j ->].
    change (worker_step j s = Some s') in Hs.
    rewrite (worker_step_dtor _ _ _ Hs). split; [by eauto|].
    exists w. split; [|done]. rewrite <-Hw.
    destruct (decide (i = j)) as [<-|Hne].
    + by rewrite (worker_step_at i s w Hw), Hpc in Hs.
    + worker_cases Hs wj Hwj; simpl; by rewrite list_lookup_insert_ne.
  - env_cases Hs; simpl in *; simplify_eq; try (split; by eauto).
    + unfold alive in *. by rewrite Hd in *.
    + split; [by eauto|]. exists w. split; [|done].
      rewrite list_lookup_insert_ne; [done|].
      intros ->. by rewrite bool_decide_eq_true_2 in Hl.
    + assert (k = i ∨ k < i) as [->|Hlt] by lia; [congruence|].
      split; [exists (S k); split; [done|lia]|]. exists w.
      split; [|done]. rewrite list_lookup_insert_ne; [done|lia].
    + assert (k = i ∨ k < i) as [->|Hlt] by lia; [congruence|].
      split; [exists (S k); split; [done|lia]|]. by eauto.
    + match goal with H : pool_ s !! k = None |- _ =>
        apply lookup_ge_None in H end.
      apply lookup_lt_Some in Hw. lia.
Qed.

Lemma hung_run i tr s s' :
  hung i s → Forall (λ l, may_wake i l = false) tr → run tr s = Some s' →
  hung i s'.
Proof.
  revert s. induction tr as [|l tr IH]; intros s Hh Hall Hr; simpl in Hr.
  - by simplify_eq.
  - apply Forall_cons in Hall as [Hl Hall].
    destruct (step l s) as [s1|] eqn:Hs; simpl in Hr; [|done].
    apply (IH s1); [by eapply hung_step|done..].
Qed.

(** X14: the wake-up of the destructor can be lost.  A worker that has
    found the predicate of [wait] false (line 52) still holds the mutex when
    the destructor, which does not lock it, stores [quit_] and notifies all
    (lines 34-35); the worker then blocks with [quit_] set.  From then on the
    join of that thread does not return: whatever the threads do, short of a
    spurious wake-up of that thread or the notification of a call of
    [commit] that was in flight, the thread stays blocked and the destructor
    does not get to its end. *)
Theorem destructor_wakeup_can_be_lost i s w :
  pool_ s !! i = Some w → wpc w = AtWait → joinable w = true →
  dtor s = None →
  ∃ s1, run [LDestroy; LDestroy; LWorker i] s = Some s1 ∧
        EvNotifyAll ∈ log s1 ∧ hung i s1 ∧
        worker_step i s1 = None ∧
        ∀ tr s', Forall (λ l, may_wake i l = false) tr →
                 run tr s1 = Some s' →
                 hung i s' ∧ dtor s' ≠ Some DDone.
Proof.
  intros Hw Hpc Hj Hd.
  pose (sa := set_dtor (Some DNotify) (emit [EvStoreQuit] (set_quit true s))).
  pose (sb := set_dtor (Some (DJoin 0)) (notify_all sa)).
  pose (s1 := emit [EvUnlock (worker i)]
                (set_lock None (set_worker i (goto Parked w) sb))).
  assert (Hwb : pool_ sb !! i = Some w).
  { simpl. rewrite list_lookup_fmap, Hw. simpl.
    unfold wake, is_parked. by rewrite Hpc. }
  assert (H1 : pool_ s1 !! i = Some (goto Parked w)).
  { by eapply (lookup_set_worker i _ sb). }
  assert (Hh : hung i s1).
  { split; [done|]. split; [exists 0; split; [done|lia]|].
    exists (goto Parked w). by split. }
  exists s1. split; [|split; [|split; [done|split]]].
  - rewrite (run_cons _ _ s sa) by (simpl; unfold dtor_step; by rewrite Hd).
    rewrite (run_cons _ _ sa sb) by done.
    rewrite (run_cons _ _ sb s1)
      by (simpl; by rewrite (worker_step_at i sb w Hwb), Hpc).
    done.
  - simpl. rewrite !elem_of_app, !list_elem_of_singleton. tauto.
  - by rewrite (worker_step_at i s1 _ H1).
  - intros tr s' Hall Hrun. pose proof (hung_run i tr s1 s' Hh Hall Hrun) as Hh'.
    split; [done|]. destruct Hh' as (_ & (k & -> & _) & _). done.
Qed.

Lemma destructor_wakeup_can_be_lost_witness :
  reachable racing_pool ∧
  ∃ s1, run [LDestroy; LDestroy; LWorker 0] racing_pool = Some s1 ∧
        EvNotifyAll ∈ log s1 ∧ hung 0 s1 ∧
        worker_step 0 s1 = None ∧
        ∀ tr s', Forall (λ l, may_wake 0 l = false) tr →
                 run tr s1 = Some s' →
                 hung 0 s' ∧ dtor s' ≠ Some DDone.
Proof.
  split.
  - exists 1%Z, 0%Z, 0%Z, racing_trace. vm_compute. reflexivity.
  - apply (destructor_wakeup_can_be_lost 0 racing_pool
             (mkWorker AtWait false true)); reflexivity.
Defined.

Lemma commit_accepted f pick s :
  quit_ s = false → oper_lock_ s = None →
  ∃ s', commit f pick s = Returns (length (futures s)) s' ∧
        tasks_ s' = tasks_ s ++ [mkTask (length (futures s)) f] ∧
        futures s' = futures s ++ [None] ∧
        quit_ s' = false ∧ oper_lock_ s' = None ∧
        length (pool_ s') = length (pool_ s).
Proof.
  intros Hq Hl. unfold commit, commit_begin, commit_end. rewrite Hq. simpl.
  rewrite Hl.
  match goal with |- context [notify_one pick ?s0] =>
    destruct (notify_one_shape pick s0) as (pool' & o & -> & HF) end.
  eexists. split; [done|]. simpl. repeat split; try done.
  by rewrite <-(Forall2_length _ _ _ HF).
Qed.

(** X11: the queue has no bound.  Whatever its length, and whatever
    [cache_] holds, a caller that commits any number of items in a row to a
    pool whose [quit_] is clear, the mutex being free, is never refused and
    never blocked: it gets one future per item, at consecutive fresh
    addresses and all unset, and the queue has grown by the items, in their
    order. *)
Theorem commit_is_never_refused items s :
  quit_ s = false → oper_lock_ s = None →
  ∃ s', commit_all items s =
          Returns (seq (length (futures s)) (length items)) s' ∧
        tasks_ s' = tasks_ s ++ tasks_from (length (futures s)) items ∧
        futures s' = futures s ++ replicate (length items) None ∧
        quit_ s' = false ∧ oper_lock_ s' = None.
Proof.
  revert s. induction items as [|[f pick] items IH]; intros s Hq Hl.
  - exists s. simpl. by rewrite !app_nil_r.
  - destruct (commit_accepted f pick s Hq Hl)
      as (s1 & Hc & Ht & Hf & Hq1 & Hl1 & _).
    destruct (IH s1 Hq1 Hl1) as (s2 & Hc2 & Ht2 & Hf2 & Hq2 & Hl2).
    exists s2. simpl. rewrite Hc, Hc2, Ht2, Hf2, Ht, Hf.
    rewrite length_app, Nat.add_1_r, <-!(assoc (++)). done.
Qed.

Lemma commit_is_never_refused_witness :
  ∃ s', commit_all [(Value 1, 0); (Failure "x", 3); (Value 2, 1)] idle_pool =
          Returns [0; 1; 2] s' ∧
        tasks_ s' = tasks_ idle_pool ++
          tasks_from 0 [(Value 1, 0); (Failure "x", 3); (Value 2, 1)] ∧
        futures s' = futures idle_pool ++ replicate 3 None ∧
        quit_ s' = false ∧ oper_lock_ s' = None.
Proof.
  apply (commit_is_never_refused
           [(Value 1, 0); (Failure "x", 3); (Value 2, 1)] idle_pool);
    reflexivity.
Defined.



(** X13: a spurious wake-up does no harm.  A worker blocked in [wait] that
    is unblocked without a notification, while [quit_] is clear and the queue
    is empty, takes the mutex, finds the predicate of line 53 false and
    blocks again, releasing the mutex: threads, queue, flags, mutex and
    futures are as before. *)
Theorem spurious_wakeup_is_harmless i s w :
  pool_ s !! i = Some w → wpc w = Parked →
  quit_ s = false → tasks_ s = [] → oper_lock_ s = None →
  ∃ s', run [LSpurious i; LWorker i; LWorker i; LWorker i] s = Some s' ∧
        pool_ s' = pool_ s ∧ tasks_ s' = [] ∧ quit_ s' = false ∧
        oper_lock_ s' = None ∧ futures s' = futures s ∧
        log s' = log s ++ [EvLock (worker i); EvUnlock (worker i)].
Proof.
  intros Hw Hpc Hq Ht Hl.
  assert (Hlt : i < length (pool_ s)) by (by eapply lookup_lt_Some).
  pose (s1 := set_worker i (goto Woken w) s).
  pose (s2 := emit [EvLock (worker i)]
                (set_lock (Some i) (set_worker i (goto AtPred w) s1))).
  pose (s3 := set_worker i (goto AtWait w) s2).
  pose (s4 := emit [EvUnlock (worker i)]
                (set_lock None (set_worker i (goto Parked w) s3))).
  assert (H1 : pool_ s1 !! i = Some (goto Woken w))
    by (by eapply lookup_set_worker).
  assert (H2 : pool_ s2 !! i = Some (goto AtPred w))
    by (by eapply (lookup_set_worker i _ s1)).
  assert (H3 : pool_ s3 !! i = Some (goto AtWait w))
    by (by eapply (lookup_set_worker i _ s2)).
  exists s4. split.
  - rewrite (run_cons _ _ s s1).
    2:{ simpl. unfold spurious_wakeup, is_parked. by rewrite Hw; simpl; rewrite Hpc. }
    rewrite (run_cons _ _ s1 s2)
      by (simpl; by rewrite (worker_step_at i s1 _ H1); simpl; rewrite Hl).
    rewrite (run_cons _ _ s2 s3).
    2:{ simpl. rewrite (worker_step_at i s2 _ H2). simpl. by rewrite Hq, Ht. }
    rewrite (run_cons _ _ s3 s4); [done|].
    simpl. by rewrite (worker_step_at i s3 _ H3).
  - simpl. rewrite <-(assoc (++)). repeat split; try done.
    rewrite !list_insert_insert_eq. apply list_insert_id.
    rewrite Hw. f_equal. destruct w. simpl in *. by subst.
Qed.

Lemma spurious_wakeup_is_harmless_witness :
  ∃ s', run [LSpurious 0; LWorker 0; LWorker 0; LWorker 0] idle_pool
          = Some s' ∧
        pool_ s' = pool_ idle_pool ∧ tasks_ s' = [] ∧ quit_ s' = false ∧
        oper_lock_ s' = None ∧ futures s' = futures idle_pool ∧
        log s' = log idle_pool ++ [EvLock (worker 0); EvUnlock (worker 0)].
Proof.
  apply (spurious_wakeup_is_harmless 0 idle_pool (mkWorker Parked false true));
    reflexivity.
Defined.
